(** * LocalRepository: buckets emulated over the window's local storage

    A shallow embedding of [src/persistence/localRepository.ts].

    - The host [Storage] object ([window.localStorage]) is a finite map from
      strings to strings; [getItem] answers [None] where JavaScript answers
      [null].
    - JavaScript strings are sequences of code units; here a code unit is an
      [ascii], so the model covers the Latin-1 range.
    - Calls are made one at a time, each awaited before the next. Every
      [async] method of the class then runs its body to the end before the
      caller resumes (the only suspension points are awaits on already
      settled promises of the class itself), so a method is a function from
      the store to an outcome and the next store. Calls started together,
      without awaiting, are outside the model.
    - A thrown exception is an explicit [Throw] outcome.
    - [getId], [ContractState] and the record types come from dlc-lib; the
      function and the member [Accepted] are parameters, a record is the
      list of the properties of its object. *)

From Stdlib Require Import ZArith Ascii String List Lia Bool Permutation Sorted.
From Stdlib Require Import DecimalString HexadecimalString DecimalN DecimalPos DecimalFacts HexadecimalN.
From stdpp Require Import gmap strings list fin_maps.

Local Open Scope string_scope.
#[local] Arguments String.append !s1 s2 : simpl nomatch.

(** ** Outcomes of a method: a value, or a thrown exception *)

Inductive ErrorCode := NotFound.

Inductive exn :=
| RepositoryError (code : ErrorCode)
| SyntaxError
| TypeError.

Inductive result (A : Type) :=
| Ok (a : A)
| Throw (e : exn).
Arguments Ok {A} a.
Arguments Throw {A} e.

Definition rbind {A B} (r : result A) (k : A -> result B) : result B :=
  match r with
  | Ok a => k a
  | Throw e => Throw e
  end.

Notation "'do' x <- r ; k" := (rbind r (fun x => k))
  (at level 10, x name, r at level 100, k at level 200).

(** ** Built-in string and array operations used by the class *)

Module Js.

(** [String.prototype.split] with a one code unit separator. *)
Fixpoint split (sep : ascii) (s : string) : list string :=
  match s with
  | EmptyString => [EmptyString]
  | String c s' =>
      if Ascii.eqb c sep then EmptyString :: split sep s'
      else match split sep s' with
           | [] => [String c EmptyString]
           | w :: ws => String c w :: ws
           end
  end.

(** [Array.prototype.join] with a one code unit separator. *)
Fixpoint join (sep : ascii) (l : list string) : string :=
  match l with
  | [] => EmptyString
  | [w] => w
  | w :: ws => w ++ String sep (join sep ws)
  end.

(** [Array.prototype.indexOf] on an array of strings; [None] is the
    source's [-1]. *)
Fixpoint indexOf (key : string) (l : list string) : option nat :=
  match l with
  | [] => None
  | k :: l' => if String.eqb k key then Some 0%nat
               else option_map S (indexOf key l')
  end.

(** [keyList.splice(index, 1)]. *)
Definition splice1 (index : nat) (l : list string) : list string :=
  delete index l.

(** Decimal numeral of a natural number, as [Number.prototype.toString]
    prints a non-negative integer. *)
Definition dec (n : N) : string :=
  DecimalString.NilEmpty.string_of_uint (N.to_uint n).

(** An array index in the sense of ECMAScript: a string that is the
    canonical decimal numeral of an integer in the range 0 .. 2^32 - 2. *)
Definition array_index (s : string) : option N :=
  match DecimalString.NilEmpty.uint_of_string s with
  | Some d =>
      let n := N.of_uint d in
      if String.eqb (dec n) s && (n <? 4294967295)%N then Some n else None
  | None => None
  end.

(** Order in which an ordinary object lists its own string keys: array
    indices first, ascending; then the other keys as they were created. *)
Definition key_before (k k' : string) : bool :=
  match array_index k, array_index k' with
  | Some a, Some b => (a <? b)%N
  | Some _, None => true
  | None, _ => false
  end.

Section props.
Context {V : Type}.

Fixpoint obj_get (k : string) (o : list (string * V)) : option V :=
  match o with
  | [] => None
  | (k', v) :: o' => if String.eqb k' k then Some v else obj_get k o'
  end.

Fixpoint obj_replace (k : string) (v : V) (o : list (string * V))
  : list (string * V) :=
  match o with
  | [] => []
  | (k', v') :: o' =>
      if String.eqb k' k then (k, v) :: o'
      else (k', v') :: obj_replace k v o'
  end.

Fixpoint obj_insert (k : string) (v : V) (o : list (string * V))
  : list (string * V) :=
  match o with
  | [] => [(k, v)]
  | (k', v') :: o' =>
      if key_before k k' then (k, v) :: (k', v') :: o'
      else (k', v') :: obj_insert k v o'
  end.

(** CreateDataProperty on an ordinary object: an existing own property
    keeps its place, a new one is placed by [key_before]. *)
Definition obj_define (k : string) (v : V) (o : list (string * V))
  : list (string * V) :=
  match obj_get k o with
  | Some _ => obj_replace k v o
  | None => obj_insert k v o
  end.
End props.

(** An object made by the literal [{}] and filled by assignments
    [ret[key] = value]. Its prototype is [Object.prototype] until an
    assignment to ["__proto__"] of [null] removes it; while the prototype
    is there, an assignment to ["__proto__"] runs the inherited setter,
    which ignores a string. *)
Record dict (V : Type) := Dict {
  has_proto : bool;
  props : list (string * option V)
}.
Arguments Dict {V} _ _.
Arguments has_proto {V} _.
Arguments props {V} _.

Definition empty_dict {V} : dict V := Dict true [].

Definition assign {V} (k : string) (v : option V) (o : dict V) : dict V :=
  if String.eqb k "__proto__" && has_proto o then
    match v with
    | None => Dict false (props o)
    | Some _ => o
    end
  else Dict (has_proto o) (obj_define k v (props o)).

(** [for (const key in o)]: the own keys ([Object.prototype] has no
    enumerable property). *)
Definition for_in {V} (o : dict V) : list string := map fst (props o).

End Js.

(** ** JSON values, [JSON.stringify] and [JSON.parse]

    The values that [JSON.parse] builds: numbers are the integers (printed
    as JavaScript prints a safe integer), an object is the list of its own
    properties in the order the engine lists them. *)

#[local] Unset Elimination Schemes.
Inductive json :=
| JNull
| JBool (b : bool)
| JNum (n : Z)
| JStr (s : string)
| JArr (l : list json)
| JObj (o : list (string * json)).

#[local] Set Elimination Schemes.

Abbreviation jsobj := (list (string * json)).

Module Json.

Definition dquote : ascii := "034"%char.
Definition backslash : ascii := "092"%char.

Definition hex_digit (n : N) : ascii :=
  ascii_of_N (if (n <? 10)%N then 48 + n else 87 + n).

(** One code unit inside a quoted string (QuoteJSONString). *)
Definition escape (c : ascii) : string :=
  let n := N_of_ascii c in
  if Ascii.eqb c dquote then String backslash (String dquote EmptyString)
  else if Ascii.eqb c backslash then String backslash (String backslash EmptyString)
  else if (n =? 8)%N then String backslash "b"
  else if (n =? 9)%N then String backslash "t"
  else if (n =? 10)%N then String backslash "n"
  else if (n =? 12)%N then String backslash "f"
  else if (n =? 13)%N then String backslash "r"
  else if (n <? 32)%N then
    String backslash
      (String "u" (String "0" (String "0"
         (String (hex_digit (n / 16)) (String (hex_digit (n mod 16)) EmptyString)))))
  else String c EmptyString.

Fixpoint quote_chars (s : string) : string :=
  match s with
  | EmptyString => String dquote EmptyString
  | String c s' => escape c ++ quote_chars s'
  end.

Definition quote (s : string) : string := String dquote (quote_chars s).

(** [Number.prototype.toString] on an integer. *)
Definition number_to_string (n : Z) : string :=
  match n with
  | Z0 => "0"
  | Zpos p => Js.dec (Npos p)
  | Zneg p => String "-" (Js.dec (Npos p))
  end.

Fixpoint stringify (v : json) : string :=
  match v with
  | JNull => "null"
  | JBool true => "true"
  | JBool false => "false"
  | JNum n => number_to_string n
  | JStr s => quote s
  | JArr l => String "[" (Js.join "," (map stringify l) ++ "]")
  | JObj o =>
      String "{"
        (Js.join ","
           (map (fun kv => quote (fst kv) ++ String ":" (stringify (snd kv))) o)
         ++ "}")
  end.

(** *** Parsing *)

Definition is_ws (c : ascii) : bool :=
  let n := N_of_ascii c in
  ((n =? 32) || (n =? 9) || (n =? 10) || (n =? 13))%N.

Fixpoint skip_ws (s : string) : string :=
  match s with
  | EmptyString => EmptyString
  | String c s' => if is_ws c then skip_ws s' else s
  end.

Definition is_digit (c : ascii) : bool :=
  let n := N_of_ascii c in ((48 <=? n) && (n <=? 57))%N.

Fixpoint span_digits (s : string) : string * string :=
  match s with
  | EmptyString => (EmptyString, EmptyString)
  | String c s' =>
      if is_digit c then
        let '(d, r) := span_digits s' in (String c d, r)
      else (EmptyString, s)
  end.

(** The digits of a number token. A token with a fraction or an exponent
    part is outside the fragment of this model (the class writes none for
    an integer) and is not accepted. *)
Definition parse_nat (s : string) : option (N * string) :=
  let '(ds, rest) := span_digits s in
  match ds with
  | EmptyString => None
  | String c ds' =>
      if Ascii.eqb c "0" && negb (String.eqb ds' EmptyString) then None
      else
        let more :=
          match rest with
          | String c' _ => Ascii.eqb c' "." || Ascii.eqb c' "e" || Ascii.eqb c' "E"
          | EmptyString => false
          end in
        if more then None
        else match DecimalString.NilEmpty.uint_of_string ds with
             | Some d => Some (N.of_uint d, rest)
             | None => None
             end
  end.

Definition parse_number (s : string) : option (Z * string) :=
  match s with
  | String c s' =>
      if Ascii.eqb c "-" then
        match parse_nat s' with
        | Some (n, r) => Some ((- Z.of_N n)%Z, r)
        | None => None
        end
      else
        match parse_nat s with
        | Some (n, r) => Some (Z.of_N n, r)
        | None => None
        end
  | EmptyString => None
  end.

Definition hex_val (c : ascii) : option N :=
  let n := N_of_ascii c in
  if ((48 <=? n) && (n <=? 57))%N then Some (n - 48)%N
  else if ((97 <=? n) && (n <=? 102))%N then Some (n - 87)%N
  else if ((65 <=? n) && (n <=? 70))%N then Some (n - 55)%N
  else None.

Definition hex4 (a b c d : ascii) : option N :=
  match hex_val a, hex_val b, hex_val c, hex_val d with
  | Some x, Some y, Some z, Some w =>
      Some (((x * 16 + y) * 16 + z) * 16 + w)%N
  | _, _, _, _ => None
  end.

Definition unescape (e : ascii) : option ascii :=
  if Ascii.eqb e dquote then Some dquote
  else if Ascii.eqb e backslash then Some backslash
  else if Ascii.eqb e "/" then Some "/"%char
  else if Ascii.eqb e "b" then Some (ascii_of_N 8)
  else if Ascii.eqb e "f" then Some (ascii_of_N 12)
  else if Ascii.eqb e "n" then Some (ascii_of_N 10)
  else if Ascii.eqb e "r" then Some (ascii_of_N 13)
  else if Ascii.eqb e "t" then Some (ascii_of_N 9)
  else None.

Definition cons_char (c : ascii) (r : option (string * string))
  : option (string * string) :=
  match r with
  | Some (str, rest) => Some (String c str, rest)
  | None => None
  end.

(** The code units of a string token after its opening quote, up to the
    closing quote. An escape [\uXXXX] above the Latin-1 range denotes a
    code unit outside this model and is not accepted. *)
Fixpoint parse_chars (s : string) : option (string * string) :=
  match s with
  | EmptyString => None
  | String c s' =>
      if Ascii.eqb c dquote then Some (EmptyString, s')
      else if Ascii.eqb c backslash then
        match s' with
        | EmptyString => None
        | String e s'' =>
            if Ascii.eqb e "u" then
              match s'' with
              | String h1 (String h2 (String h3 (String h4 s3))) =>
                  match hex4 h1 h2 h3 h4 with
                  | Some n =>
                      if (n <? 256)%N then cons_char (ascii_of_N n) (parse_chars s3)
                      else None
                  | None => None
                  end
              | _ => None
              end
            else
              match unescape e with
              | Some c' => cons_char c' (parse_chars s'')
              | None => None
              end
        end
      else if (N_of_ascii c <? 32)%N then None
      else cons_char c (parse_chars s')
  end.

Fixpoint expect (lit s : string) : option string :=
  match lit with
  | EmptyString => Some s
  | String c lit' =>
      match s with
      | String c' s' => if Ascii.eqb c c' then expect lit' s' else None
      | EmptyString => None
      end
  end.

(** The object a list of parsed members denotes: each member is defined in
    turn, so a repeated key keeps its first place and its last value. *)
Definition build_object (ms : list (string * json)) : jsobj :=
  fold_left (fun o kv => Js.obj_define (fst kv) (snd kv) o) ms [].

Fixpoint parse_value (fuel : nat) (s : string) : option (json * string) :=
  match fuel with
  | O => None
  | S f =>
      match skip_ws s with
      | EmptyString => None
      | String c s' =>
          if Ascii.eqb c "n" then option_map (pair JNull) (expect "ull" s')
          else if Ascii.eqb c "t" then option_map (pair (JBool true)) (expect "rue" s')
          else if Ascii.eqb c "f" then option_map (pair (JBool false)) (expect "alse" s')
          else if Ascii.eqb c dquote then
            match parse_chars s' with
            | Some (str, r) => Some (JStr str, r)
            | None => None
            end
          else if Ascii.eqb c "[" then
            match skip_ws s' with
            | String c1 r1 =>
                if Ascii.eqb c1 "]" then Some (JArr [], r1)
                else match parse_elements f s' with
                     | Some (vs, r) => Some (JArr vs, r)
                     | None => None
                     end
            | EmptyString => None
            end
          else if Ascii.eqb c "{" then
            match skip_ws s' with
            | String c1 r1 =>
                if Ascii.eqb c1 "}" then Some (JObj [], r1)
                else match parse_members f s' with
                     | Some (ms, r) => Some (JObj (build_object ms), r)
                     | None => None
                     end
            | EmptyString => None
            end
          else
            match parse_number (String c s') with
            | Some (n, r) => Some (JNum n, r)
            | None => None
            end
      end
  end
with parse_elements (fuel : nat) (s : string) : option (list json * string) :=
  match fuel with
  | O => None
  | S f =>
      match parse_value f s with
      | Some (v, r) =>
          match skip_ws r with
          | String c r' =>
              if Ascii.eqb c "," then
                match parse_elements f r' with
                | Some (vs, r'') => Some (v :: vs, r'')
                | None => None
                end
              else if Ascii.eqb c "]" then Some ([v], r')
              else None
          | EmptyString => None
          end
      | None => None
      end
  end
with parse_members (fuel : nat) (s : string)
  : option (list (string * json) * string) :=
  match fuel with
  | O => None
  | S f =>
      match skip_ws s with
      | String q s1 =>
          if Ascii.eqb q dquote then
            match parse_chars s1 with
            | Some (k, r) =>
                match skip_ws r with
                | String c r1 =>
                    if Ascii.eqb c ":" then
                      match parse_value f r1 with
                      | Some (v, r2) =>
                          match skip_ws r2 with
                          | String c2 r3 =>
                              if Ascii.eqb c2 "," then
                                match parse_members f r3 with
                                | Some (ms, r4) => Some ((k, v) :: ms, r4)
                                | None => None
                                end
                              else if Ascii.eqb c2 "}" then Some ([(k, v)], r3)
                              else None
                          | EmptyString => None
                          end
                      | None => None
                      end
                    else None
                | EmptyString => None
                end
            | None => None
            end
          else None
      | EmptyString => None
      end
  end.

(** [JSON.parse]; [None] is a thrown [SyntaxError]. *)
Definition parse (text : string) : option json :=
  match parse_value (S (String.length text)) text with
  | Some (v, r) =>
      match skip_ws r with
      | EmptyString => Some v
      | String _ _ => None
      end
  | None => None
  end.

(** *** Operators on values *)

(** [a === b] and SameValueZero where [b] is a member of an enumeration (a
    number or a string): equal primitives. An array or an object read from
    a parsed record is never identical to such a member. *)
Definition strict_equal (a b : json) : bool :=
  match a, b with
  | JNull, JNull => true
  | JBool x, JBool y => Bool.eqb x y
  | JNum x, JNum y => (x =? y)%Z
  | JStr x, JStr y => String.eqb x y
  | _, _ => false
  end.

Fixpoint index_from {A} (i : N) (l : list A) : list (string * A) :=
  match l with
  | [] => []
  | x :: l' => (Js.dec i, x) :: index_from (N.succ i) l'
  end.

Fixpoint code_units (s : string) : list json :=
  match s with
  | EmptyString => []
  | String c s' => JStr (String c EmptyString) :: code_units s'
  end.

(** The own enumerable properties that [{...v}] copies. *)
Definition spread (v : json) : jsobj :=
  match v with
  | JObj o => o
  | JArr l => index_from 0 l
  | JStr s => index_from 0 (code_units s)
  | _ => []
  end.

End Json.

(** ** The class *)

Abbreviation Storage := (gmap string string).

Definition addressBucketTag := "addressBucket".
Definition utxoBucketTag := "utxoBucket".
Definition contractBucketTag := "contractBucket".
Definition keyPairBucketTag := "keyPairBucket".
Definition locationKey := "locationKey".

Definition getItem (db : Storage) (key : string) : option string := db !! key.
Definition setItem (key value : string) (db : Storage) : Storage :=
  <[key := value]> db.
Definition removeItem (key : string) (db : Storage) : Storage := delete key db.

Definition comma : ascii := ","%char.

Definition getBucketKeys (db : Storage) (bucketTag : string) : list string :=
  match getItem db bucketTag with
  | Some res => Js.split comma res
  | None => []
  end.

Definition upsertInBucket (key value bucketTag : string) (db : Storage)
  : Storage :=
  let keyList := getBucketKeys db bucketTag in
  let db1 :=
    match Js.indexOf key keyList with
    | None => setItem bucketTag (Js.join comma (keyList ++ [key])) db
    | Some _ => db
    end in
  setItem key value db1.

Definition deleteInBucket (key bucketTag : string) (db : Storage) : Storage :=
  let keyList := getBucketKeys db bucketTag in
  match Js.indexOf key keyList with
  | None => db
  | Some index =>
      let keyList' := Js.splice1 index keyList in
      let db1 :=
        if (length keyList' =? 0)%nat then removeItem bucketTag db
        else setItem bucketTag (Js.join comma keyList') db in
      removeItem key db1
  end.

Definition getAllKeyValuesInBucket (db : Storage) (bucketTag : string)
  : Js.dict string :=
  fold_left (fun ret key => Js.assign key (getItem db key) ret)
            (getBucketKeys db bucketTag) Js.empty_dict.

Definition getAllValuesInBucket (db : Storage) (bucketTag : string)
  : list (option string) :=
  map snd (Js.props (getAllKeyValuesInBucket db bucketTag)).

Definition getAllKeysInBucket (db : Storage) (bucketTag : string)
  : list string :=
  Js.for_in (getAllKeyValuesInBucket db bucketTag).

Definition getValue (db : Storage) (key : string) : result string :=
  match getItem db key with
  | Some res => Ok res
  | None => Throw (RepositoryError NotFound)
  end.

Definition saveLocation (location : string) (db : Storage) : Storage :=
  setItem locationKey location db.
Definition getLocation (db : Storage) : option string := getItem db locationKey.

Definition upsertAddress (address privkey : string) (db : Storage) : Storage :=
  upsertInBucket address privkey addressBucketTag db.
Definition deleteAddress (address : string) (db : Storage) : Storage :=
  deleteInBucket address addressBucketTag db.
Definition getAddresses (db : Storage) : list string :=
  getAllKeysInBucket db addressBucketTag.
Definition getPrivKeyForAddress (db : Storage) (address : string)
  : result string := getValue db address.

Definition upsertKeyPair (publicKey privkey : string) (db : Storage)
  : Storage := upsertInBucket publicKey privkey keyPairBucketTag db.
Definition getPrivKeyForPubkey (db : Storage) (publicKey : string)
  : result string := getValue db publicKey.

Definition hasContract (db : Storage) (contractId : string) : bool :=
  match getItem db contractId with
  | Some _ => true
  | None => false
  end.

(** [utxo.vout.toString(16).padStart(2, '0')] on an integer. *)
Definition hex (n : N) : string :=
  HexadecimalString.NilEmpty.string_of_uint (N.to_hex_uint n).

Definition toString16 (n : Z) : string :=
  match n with
  | Z0 => "0"
  | Zpos p => hex (Npos p)
  | Zneg p => String "-" (hex (Npos p))
  end.

Definition padStart2 (s : string) : string :=
  match s with
  | EmptyString => "00"
  | String c EmptyString => String "0" s
  | _ => s
  end.

Definition getUtxoKey (txid : string) (vout : Z) : string :=
  txid ++ padStart2 (toString16 vout).

(** Modelled from the spec: the type [Utxo] of dlc-lib, a record with at
    least a string [txid] and a numeric [vout]. A UTXO is the list of its
    properties; an object without these two fields is not of the type and
    has no key. *)
Definition utxoKeyOf (utxo : jsobj) : option string :=
  match Js.obj_get "txid" utxo, Js.obj_get "vout" utxo with
  | Some (JStr txid), Some (JNum vout) => Some (getUtxoKey txid vout)
  | _, _ => None
  end.

Definition upsertValueInBucket (key : string) (value : json)
  (bucketTag : string) (db : Storage) : Storage :=
  upsertInBucket key (Json.stringify value) bucketTag db.

Definition getValueOfType (db : Storage) (key : string) : result json :=
  do str <- getValue db key;
  match Json.parse str with
  | Some v => Ok v
  | None => Throw SyntaxError
  end.

(** [JSON.parse(x)] where [x] may be [null]: the argument is first turned
    into the string ["null"]. *)
Definition parse_item (x : option string) : result json :=
  match x with
  | None => Ok JNull
  | Some str =>
      match Json.parse str with
      | Some v => Ok v
      | None => Throw SyntaxError
      end
  end.

Fixpoint rmap {A B} (f : A -> result B) (l : list A) : result (list B) :=
  match l with
  | [] => Ok []
  | x :: l' => do y <- f x; do ys <- rmap f l'; Ok (y :: ys)
  end.

Fixpoint rfilter {A} (f : A -> result bool) (l : list A) : result (list A) :=
  match l with
  | [] => Ok []
  | x :: l' =>
      do b <- f x; do ys <- rfilter f l'; Ok (if b then x :: ys else ys)
  end.

Definition getAllValuesInBucketOfType (db : Storage) (bucketTag : string)
  : result (list json) :=
  rmap parse_item (getAllValuesInBucket db bucketTag).

Definition upsertUtxo (utxo : jsobj) (db : Storage) : result Storage :=
  match utxoKeyOf utxo with
  | Some key => Ok (upsertInBucket key (Json.stringify (JObj utxo)) utxoBucketTag db)
  | None => Throw TypeError
  end.

Definition deleteUtxo (utxo : jsobj) (db : Storage) : result Storage :=
  match utxoKeyOf utxo with
  | Some key => Ok (deleteInBucket key utxoBucketTag db)
  | None => Throw TypeError
  end.

Definition getUtxos (db : Storage) : result (list json) :=
  getAllValuesInBucketOfType db utxoBucketTag.

Definition unreserveUtxo (txid : string) (vout : Z) (db : Storage)
  : result Storage :=
  let key := getUtxoKey txid vout in
  do utxo <- getValueOfType db key;
  Ok (upsertValueInBucket key
        (JObj (Js.obj_define "reserved" (JBool false) (Json.spread utxo)))
        utxoBucketTag db).

(** Modelled from the spec: the type [ContractQuery] of dlc-lib, of which
    the class reads the set of acceptable states; [states] is [None] for a
    query without the field. *)
Record ContractQuery := { states : option (list json) }.

(** [contract.state] on a parsed value: reading a property of [null]
    throws, a value that is not an object has no such property. *)
Definition state_of (contract : json) : result (option json) :=
  match contract with
  | JNull => Throw TypeError
  | JObj o => Ok (Js.obj_get "state" o)
  | _ => Ok None
  end.

(** [states.includes(x)]. *)
Definition includes (l : list json) (x : option json) : bool :=
  match x with
  | Some v => existsb (Json.strict_equal v) l
  | None => false
  end.

Definition hasOneOfState (states : option (list json)) (contract : json)
  : result bool :=
  match states with
  | None => Ok true
  | Some l => do st <- state_of contract; Ok (includes l st)
  end.

Definition isMatch (contract : json) (query : ContractQuery) : result bool :=
  hasOneOfState (states query) contract.

Definition getContract (db : Storage) (contractId : string) : result json :=
  getValueOfType db contractId.

Definition getContracts (query : option ContractQuery) (db : Storage)
  : result (list json) :=
  do allValues <- getAllValuesInBucketOfType db contractBucketTag;
  match query with
  | None => Ok allValues
  | Some q => rfilter (hasOneOfState (states q)) allValues
  end.

Definition deleteContract (contractId : string) (db : Storage) : Storage :=
  deleteInBucket contractId contractBucketTag db.

Section Contracts.

(** [getId] and [ContractState.Accepted] come from dlc-lib: the function
    that derives the identifier of a contract, and one member of the
    enumeration of states. A contract is the list of its properties. *)
Variable getId : jsobj -> string.
Variable Accepted : json.

Definition createContract (contract : jsobj) (db : Storage) : Storage :=
  upsertValueInBucket (getId contract) (JObj contract) contractBucketTag db.

Definition isAccepted (contract : jsobj) : bool :=
  match Js.obj_get "state" contract with
  | Some v => Json.strict_equal v Accepted
  | None => false
  end.

(** [deleteInBucket(contract.temporaryContractId, contractBucketTag)]:
    [indexOf] finds nothing for a value that is not a string. *)
Definition deleteTemporary (contract : jsobj) (db : Storage) : Storage :=
  match Js.obj_get "temporaryContractId" contract with
  | Some (JStr temporaryContractId) =>
      deleteInBucket temporaryContractId contractBucketTag db
  | _ => db
  end.

Definition updateContract (contract : jsobj) (db : Storage) : Storage :=
  let db1 := if isAccepted contract then deleteTemporary contract db else db in
  upsertValueInBucket (getId contract) (JObj contract) contractBucketTag db1.

(** *** Sequences of calls that write *)

Inductive op :=
| SaveLocation (location : string)
| UpsertAddress (address privkey : string)
| DeleteAddress (address : string)
| UpsertKeyPair (publicKey privkey : string)
| UpsertUtxo (utxo : jsobj)
| DeleteUtxo (utxo : jsobj)
| UnreserveUtxo (txid : string) (vout : Z)
| CreateContract (contract : jsobj)
| UpdateContract (contract : jsobj)
| DeleteContract (contractId : string).

Definition settle (r : result Storage) (db : Storage) : Storage :=
  match r with
  | Ok db' => db'
  | Throw _ => db
  end.

(** The store after one call; a call that throws has written nothing. *)
Definition step (db : Storage) (o : op) : Storage :=
  match o with
  | SaveLocation location => saveLocation location db
  | UpsertAddress address privkey => upsertAddress address privkey db
  | DeleteAddress address => deleteAddress address db
  | UpsertKeyPair publicKey privkey => upsertKeyPair publicKey privkey db
  | UpsertUtxo utxo => settle (upsertUtxo utxo db) db
  | DeleteUtxo utxo => settle (deleteUtxo utxo db) db
  | UnreserveUtxo txid vout => settle (unreserveUtxo txid vout db) db
  | CreateContract contract => createContract contract db
  | UpdateContract contract => updateContract contract db
  | DeleteContract contractId => deleteContract contractId db
  end.

Definition run (ops : list op) (db : Storage) : Storage :=
  fold_left step ops db.

End Contracts.

(** ** Conditions on keys

    The data model constrains keys: the delimiter of the membership list
    occurs in no key, and a key is none of the reserved ones. *)

Fixpoint comma_free (s : string) : bool :=
  match s with
  | EmptyString => true
  | String c s' => negb (Ascii.eqb c comma) && comma_free s'
  end.

Definition reserved (k : string) : bool :=
  String.eqb k addressBucketTag || String.eqb k utxoBucketTag
  || String.eqb k contractBucketTag || String.eqb k keyPairBucketTag
  || String.eqb k locationKey.

(** A run of upserts into one bucket, in the order of the list. *)
Definition upsertAll (bucketTag : string) (kvs : list (string * string))
  (db : Storage) : Storage :=
  fold_left (fun db kv => upsertInBucket (fst kv) (snd kv) bucketTag db) kvs db.

Definition is_index (k : string) : bool :=
  match Js.array_index k with Some _ => true | None => false end.

(** [ordered l]: no key of the list comes after a key it should precede. *)
Definition ordered (l : list string) : Prop :=
  StronglySorted (fun a b => Js.key_before b a = false) l.

(** The keys of an object as the engine lists them: pairwise distinct,
    none before a key it should follow. *)
Fixpoint keys_ordered (ks : list string) : bool :=
  match ks with
  | [] => true
  | k :: ks' =>
      forallb (fun k' => negb (Js.key_before k' k) && negb (String.eqb k' k)) ks'
      && keys_ordered ks'
  end.

(** ** Records as values

    A value that an object of JavaScript can be: numbers are safe integers,
    the properties of an object are in the order of its own keys. *)

Definition safe_integer (n : Z) : bool :=
  ((- 9007199254740991 <=? n) && (n <=? 9007199254740991))%Z.

Fixpoint well_formed (v : json) : bool :=
  match v with
  | JNum n => safe_integer n
  | JArr l => forallb well_formed l
  | JObj o =>
      keys_ordered (map fst o) && forallb (fun kv => well_formed (snd kv)) o
  | _ => true
  end.

(** The text of one property. *)
Definition member (kv : string * json) : string :=
  Json.quote (fst kv) ++ String ":" (Json.stringify (snd kv)).

(** What may follow a value inside a text: nothing, or a separator. *)
Definition follow_ok (rest : string) : bool :=
  match rest with
  | EmptyString => true
  | String c _ => Ascii.eqb c "," || Ascii.eqb c "]" || Ascii.eqb c "}"
  end.

(** Fuel that parsing the text of a value needs. *)
Fixpoint size (v : json) : nat :=
  match v with
  | JArr l => S (list_sum (map (fun x => S (size x)) l))
  | JObj o => S (list_sum (map (fun kv => S (size (snd kv))) o))
  | _ => 1
  end.

Definition parses (v : json) : Prop :=
  well_formed v = true -> forall f rest,
    size v <= f -> follow_ok rest = true ->
    Json.parse_value f (Json.stringify v ++ rest) = Some (v, rest).

(** The last code unit of a string. *)
Fixpoint last_char (s : string) : option ascii :=
  match s with
  | EmptyString => None
  | String c EmptyString => Some c
  | String _ s' => last_char s'
  end.

(** The state of a parsed record, for the filter of a query. *)
Definition record_state (r : json) : option json :=
  match r with
  | JObj o => Js.obj_get "state" o
  | _ => None
  end.

(** Reading [state] off a loaded record throws on [null] only. *)
Definition non_null (r : json) : bool :=
  match r with JNull => false | _ => true end.

(** A member of an enumeration is a number or a string. *)
Definition primitive (v : json) : bool :=
  match v with JNum _ | JStr _ => true | _ => false end.

(** The record that a read of the store finds under a key. *)
Definition read_record (db : Storage) (key : string) : json :=
  match parse_item (getItem db key) with
  | Ok v => v
  | Throw _ => JNull
  end.

(** ** The pairing of membership lists and entries

    The four buckets, and what the data model asks of the keys that a
    call writes: a key is free of the delimiter, is none of the reserved
    keys, and belongs to one bucket ([owner] assigns every key its
    bucket). *)

Inductive Bucket := AddressBucket | KeyPairBucket | UtxoBucket | ContractBucket.

#[local] Instance Bucket_eq_dec : EqDecision Bucket.
Proof. solve_decision. Defined.

Definition tagOf (b : Bucket) : string :=
  match b with
  | AddressBucket => addressBucketTag
  | KeyPairBucket => keyPairBucketTag
  | UtxoBucket => utxoBucketTag
  | ContractBucket => contractBucketTag
  end.

Section pairing_defs.
Variable owner : string -> Bucket.
Variable getId : jsobj -> string.

Definition valid_key (b : Bucket) (k : string) : Prop :=
  comma_free k = true /\ reserved k = false /\ owner k = b.

Definition op_ok (o : op) : Prop :=
  match o with
  | UpsertAddress address _ => valid_key AddressBucket address
  | UpsertKeyPair publicKey _ => valid_key KeyPairBucket publicKey
  | UpsertUtxo utxo =>
      forall key, utxoKeyOf utxo = Some key -> valid_key UtxoBucket key
  | UnreserveUtxo txid vout => valid_key UtxoBucket (getUtxoKey txid vout)
  | CreateContract contract => valid_key ContractBucket (getId contract)
  | UpdateContract contract => valid_key ContractBucket (getId contract)
  | SaveLocation _ | DeleteAddress _ | DeleteUtxo _ | DeleteContract _ => True
  end.

(** Every member of a list has an entry and is a key of that bucket, every
    entry under a key of a bucket is a member of its list, and no list
    repeats a key. *)
Definition paired (db : Storage) : Prop :=
  forall b,
    NoDup (getBucketKeys db (tagOf b)) /\
    (forall k, k ∈ getBucketKeys db (tagOf b) ->
       is_Some (getItem db k) /\ reserved k = false /\ owner k = b) /\
    (forall k, is_Some (getItem db k) -> reserved k = false -> owner k = b ->
       k ∈ getBucketKeys db (tagOf b)).

End pairing_defs.

(** An instance of [getId] for the examples: the identifier is the [id] of
    a contract that has one and its temporaryContractId otherwise. *)
Definition example_getId (contract : jsobj) : string :=
  match Js.obj_get "id" contract with
  | Some (JStr id) => id
  | _ => match Js.obj_get "temporaryContractId" contract with
         | Some (JStr id) => id
         | _ => EmptyString
         end
  end.

(** A division of the keys among the buckets for the examples: by the
    first code units of the key. *)
Definition example_owner (k : string) : Bucket :=
  if String.prefix "bc1" k then AddressBucket
  else if String.prefix "02" k then KeyPairBucket
  else if String.prefix "tx" k then UtxoBucket
  else ContractBucket.

(** ** Definitions for the further properties *)

(** The argument of the last [saveLocation] of a sequence of calls. *)
Definition last_location (ops : list op) : option string :=
  fold_left (fun acc o => match o with SaveLocation l => Some l | _ => acc end)
            ops None.

(** A code unit that [toString(16)] writes for a digit. *)
Definition hex_digit_char (c : ascii) : bool :=
  let n := N_of_ascii c in
  ((48 <=? n) && (n <=? 57) || (97 <=? n) && (n <=? 102))%N.

(** Every code unit of the string satisfies [p]. *)
Fixpoint all_chars (p : ascii -> bool) (s : string) : bool :=
  match s with
  | EmptyString => true
  | String c s' => p c && all_chars p s'
  end.

(** A sequence of calls, a UTXO and two states of a contract for the
    examples. *)
Definition example_utxo : jsobj :=
  [("txid", JStr "tx9"); ("vout", JNum 1); ("amount", JNum 5000);
   ("reserved", JBool true)].

Definition example_offered : jsobj :=
  [("state", JNum 1); ("temporaryContractId", JStr "tmp-1")].

Definition example_accepted : jsobj :=
  [("state", JNum 2); ("temporaryContractId", JStr "tmp-1");
   ("id", JStr "final-1")].

Definition example_ops : list op :=
  [SaveLocation "first"; UpsertAddress "bc1q" "priv1";
   UpsertKeyPair "02ab" "priv2"; UpsertUtxo example_utxo;
   UnreserveUtxo "tx9" 1; CreateContract example_offered;
   SaveLocation "second"; UpdateContract example_accepted;
   DeleteAddress "bc1q"].

(** Decides a closed decidable proposition by evaluation. *)
Ltac decide_it := apply (bool_decide_unpack _); vm_compute; reflexivity.

(** * Properties *)

(** ** The built-in operations on examples *)

Example split_example : Js.split comma "a,,b" = ["a"; ""; "b"].
Proof. reflexivity. Qed.

Example split_empty_example : Js.split comma "" = [""].
Proof. reflexivity. Qed.

Example array_index_example :
  map Js.array_index ["0"; "01"; "12"; "4294967294"; "4294967295"; "1a"; ""]
  = [Some 0%N; None; Some 12%N; Some 4294967294%N; None; None; None].
Proof. vm_compute. reflexivity. Qed.

Example getUtxoKey_example :
  getUtxoKey "ab" 1 = "ab01" /\ getUtxoKey "ab" 255 = "abff"
  /\ getUtxoKey "ab" 4096 = "ab1000".
Proof. vm_compute. auto. Qed.

Example for_in_example :
  Js.for_in
    (Js.assign "1" (Some 4)
       (Js.assign "__proto__" (Some 3)
          (Js.assign "b" (Some 2) (Js.assign "2" (Some 1) Js.empty_dict))))
  = ["1"; "2"; "b"].
Proof. vm_compute. reflexivity. Qed.

Example parse_example :
  Json.parse " [1, -20 ,[ ],{ } , true]  "
  = Some (JArr [JNum 1; JNum (-20); JArr []; JObj []; JBool true]).
Proof. vm_compute. reflexivity. Qed.

(** ** Splitting and joining *)

Lemma split_not_nil sep s : Js.split sep s <> [].
Proof.
  destruct s as [|c s]; simpl; [discriminate|].
  destruct (Ascii.eqb c sep); [discriminate|].
  destruct (Js.split sep s); discriminate.
Qed.

Lemma split_comma_free s : Forall (fun w => comma_free w = true) (Js.split comma s).
Proof.
  induction s as [|c s IH]; simpl.
  - repeat constructor.
  - destruct (Ascii.eqb c comma) eqn:E.
    + constructor; [reflexivity | exact IH].
    + destruct (Js.split comma s) as [|w ws]; inversion IH; subst;
        constructor; simpl; rewrite ?E; auto.
Qed.

Lemma split_word w : comma_free w = true -> Js.split comma w = [w].
Proof.
  induction w as [|c w IH]; simpl; [reflexivity|].
  intros [Hc Hw]%andb_prop. apply negb_true_iff in Hc. rewrite Hc.
  rewrite (IH Hw). reflexivity.
Qed.

Lemma split_word_app w s :
  comma_free w = true ->
  Js.split comma (w ++ String comma s) = w :: Js.split comma s.
Proof.
  induction w as [|c w IH]; simpl; [reflexivity|].
  intros [Hc Hw]%andb_prop. apply negb_true_iff in Hc. rewrite Hc.
  rewrite (IH Hw). reflexivity.
Qed.

Lemma split_join l :
  l <> [] -> Forall (fun w => comma_free w = true) l ->
  Js.split comma (Js.join comma l) = l.
Proof.
  induction l as [|w l IH]; [congruence|]. intros _ H.
  inversion H as [|? ? Hw Hl]; subst.
  destruct l as [|w' l].
  - simpl. apply split_word; assumption.
  - change (Js.join comma (w :: w' :: l))
      with (w ++ String comma (Js.join comma (w' :: l))).
    rewrite split_word_app by assumption.
    rewrite IH; [reflexivity | discriminate | assumption].
Qed.

(** ** Searching the membership list *)

Lemma indexOf_None key l : Js.indexOf key l = None <-> key ∉ l.
Proof.
  induction l as [|k l IH]; simpl.
  - split; [intros _; apply not_elem_of_nil | reflexivity].
  - destruct (String.eqb_spec k key) as [->|Hne].
    + split; [discriminate | intros H; exfalso; apply H; left].
    + rewrite not_elem_of_cons. destruct (Js.indexOf key l); simpl.
      * split; [discriminate | intros [_ H]; apply IH in H; discriminate].
      * split; [intros _; split; [congruence | apply IH; reflexivity] | reflexivity].
Qed.

Lemma indexOf_Some key l i :
  Js.indexOf key l = Some i -> l !! i = Some key.
Proof.
  revert i; induction l as [|k l IH]; simpl; intros i; [discriminate|].
  destruct (String.eqb_spec k key) as [->|Hne].
  - intros [= <-]. reflexivity.
  - destruct (Js.indexOf key l) as [j|]; simpl; [|discriminate].
    intros [= <-]. simpl. apply IH. reflexivity.
Qed.

Lemma indexOf_elem key l : key ∈ l -> exists i, Js.indexOf key l = Some i.
Proof.
  intros H. destruct (Js.indexOf key l) as [i|] eqn:E; [eauto|].
  apply indexOf_None in E. contradiction.
Qed.

Lemma indexOf_first key l i :
  Js.indexOf key l = Some i -> key ∉ take i l.
Proof.
  revert i; induction l as [|k l IH]; simpl; intros i; [discriminate|].
  destruct (String.eqb_spec k key) as [->|Hne].
  - intros [= <-]. simpl. apply not_elem_of_nil.
  - destruct (Js.indexOf key l) as [j|]; simpl; [|discriminate].
    intros [= <-]. simpl. rewrite not_elem_of_cons. split; [congruence|].
    apply IH. reflexivity.
Qed.

(** ** The membership list of a bucket under the writes of the class *)

Lemma getBucketKeys_comma_free db tag :
  Forall (fun w => comma_free w = true) (getBucketKeys db tag).
Proof.
  unfold getBucketKeys. destruct (getItem db tag).
  - apply split_comma_free.
  - constructor.
Qed.

Lemma getBucketKeys_setItem_ne db tag k v :
  k <> tag -> getBucketKeys (setItem k v db) tag = getBucketKeys db tag.
Proof.
  intros H. unfold getBucketKeys, getItem, setItem.
  rewrite lookup_insert_ne by assumption. reflexivity.
Qed.

Lemma getBucketKeys_removeItem_ne db tag k :
  k <> tag -> getBucketKeys (removeItem k db) tag = getBucketKeys db tag.
Proof.
  intros H. unfold getBucketKeys, getItem, removeItem.
  rewrite lookup_delete_ne by assumption. reflexivity.
Qed.

Lemma getBucketKeys_removeItem_eq db tag :
  getBucketKeys (removeItem tag db) tag = [].
Proof.
  unfold getBucketKeys, getItem, removeItem.
  rewrite lookup_delete_eq. reflexivity.
Qed.

Lemma getBucketKeys_setItem_join db tag l :
  l <> [] -> Forall (fun w => comma_free w = true) l ->
  getBucketKeys (setItem tag (Js.join comma l) db) tag = l.
Proof.
  intros Hl Hcf. unfold getBucketKeys, getItem, setItem.
  rewrite lookup_insert_eq. apply split_join; assumption.
Qed.

Lemma upsertInBucket_keys key value tag db :
  comma_free key = true -> key <> tag ->
  getBucketKeys (upsertInBucket key value tag db) tag =
    match Js.indexOf key (getBucketKeys db tag) with
    | None => (getBucketKeys db tag ++ [key])%list
    | Some _ => getBucketKeys db tag
    end.
Proof.
  intros Hcf Hne. unfold upsertInBucket.
  rewrite getBucketKeys_setItem_ne by assumption.
  destruct (Js.indexOf key (getBucketKeys db tag)); [reflexivity|].
  apply getBucketKeys_setItem_join.
  - destruct (getBucketKeys db tag); discriminate.
  - apply Forall_app. split; [apply getBucketKeys_comma_free|].
    repeat constructor; assumption.
Qed.

Lemma upsertInBucket_keys_other key value tag tag' db :
  tag' <> tag -> key <> tag' ->
  getBucketKeys (upsertInBucket key value tag db) tag' = getBucketKeys db tag'.
Proof.
  intros Ht Hk. unfold upsertInBucket.
  rewrite getBucketKeys_setItem_ne by assumption.
  destruct (Js.indexOf key (getBucketKeys db tag)); [reflexivity|].
  apply getBucketKeys_setItem_ne. congruence.
Qed.

Lemma upsertInBucket_getItem key value tag db :
  getItem (upsertInBucket key value tag db) key = Some value.
Proof. unfold upsertInBucket, getItem, setItem. apply lookup_insert_eq. Qed.

Lemma upsertInBucket_getItem_ne key value tag db k :
  k <> key -> k <> tag ->
  getItem (upsertInBucket key value tag db) k = getItem db k.
Proof.
  intros Hk Ht. unfold upsertInBucket, getItem, setItem.
  rewrite lookup_insert_ne by congruence.
  destruct (Js.indexOf key (getBucketKeys db tag)); [reflexivity|].
  apply lookup_insert_ne. congruence.
Qed.

Lemma deleteInBucket_keys key tag db :
  key <> tag ->
  getBucketKeys (deleteInBucket key tag db) tag =
    match Js.indexOf key (getBucketKeys db tag) with
    | None => getBucketKeys db tag
    | Some index => delete index (getBucketKeys db tag)
    end.
Proof.
  intros Hne. unfold deleteInBucket, Js.splice1.
  destruct (Js.indexOf key (getBucketKeys db tag)) as [i|]; [|reflexivity].
  rewrite getBucketKeys_removeItem_ne by assumption.
  destruct (delete i (getBucketKeys db tag)) as [|w l] eqn:E.
  - simpl. apply getBucketKeys_removeItem_eq.
  - cbn [length Nat.eqb]. apply getBucketKeys_setItem_join; [discriminate|].
    rewrite <- E. apply Forall_delete, getBucketKeys_comma_free.
Qed.

Lemma deleteInBucket_keys_other key tag tag' db :
  tag' <> tag -> key <> tag' ->
  getBucketKeys (deleteInBucket key tag db) tag' = getBucketKeys db tag'.
Proof.
  intros Ht Hk. unfold deleteInBucket.
  destruct (Js.indexOf key (getBucketKeys db tag)) as [i|]; [|reflexivity].
  rewrite getBucketKeys_removeItem_ne by assumption.
  destruct (length _ =? 0)%nat.
  - apply getBucketKeys_removeItem_ne. congruence.
  - apply getBucketKeys_setItem_ne. congruence.
Qed.

Lemma deleteInBucket_getItem_ne key tag db k :
  k <> key -> k <> tag ->
  getItem (deleteInBucket key tag db) k = getItem db k.
Proof.
  intros Hk Ht. unfold deleteInBucket.
  destruct (Js.indexOf key (getBucketKeys db tag)) as [i|]; [|reflexivity].
  unfold getItem, removeItem, setItem.
  rewrite lookup_delete_ne by congruence.
  destruct (length _ =? 0)%nat.
  - apply lookup_delete_ne. congruence.
  - apply lookup_insert_ne. congruence.
Qed.

Lemma deleteInBucket_getItem_member key tag db :
  key ∈ getBucketKeys db tag ->
  getItem (deleteInBucket key tag db) key = None.
Proof.
  intros [i Hi]%indexOf_elem. unfold deleteInBucket. rewrite Hi.
  unfold getItem, removeItem. apply lookup_delete_eq.
Qed.

Lemma deleteInBucket_absent key tag db :
  key ∉ getBucketKeys db tag -> deleteInBucket key tag db = db.
Proof.
  intros H%indexOf_None. unfold deleteInBucket. rewrite H. reflexivity.
Qed.

(** ** Enumerating a bucket *)

Lemma getAllKeyValuesInBucket_empty db tag :
  getBucketKeys db tag = [] -> getAllKeyValuesInBucket db tag = Js.empty_dict.
Proof. unfold getAllKeyValuesInBucket. intros ->. reflexivity. Qed.

Lemma getAllKeysInBucket_empty db tag :
  getBucketKeys db tag = [] -> getAllKeysInBucket db tag = [].
Proof.
  intros H. unfold getAllKeysInBucket.
  rewrite getAllKeyValuesInBucket_empty by assumption. reflexivity.
Qed.

Lemma getAllValuesInBucketOfType_empty db tag :
  getBucketKeys db tag = [] -> getAllValuesInBucketOfType db tag = Ok [].
Proof.
  intros H. unfold getAllValuesInBucketOfType, getAllValuesInBucket.
  rewrite getAllKeyValuesInBucket_empty by assumption. reflexivity.
Qed.

(** ** Claims on the bucket index *)

(** C3: upserting (key, v1) and then (key, v2) into a bucket leaves v2
    stored under the key, and the membership list holds the key exactly
    once; the second upsert leaves the list as the first one made it. The
    key is free of the delimiter and is not the bucket tag, and the list
    held the key at most once before. *)
Theorem upsert_same_key_twice (db : Storage) (tag key v1 v2 : string) :
  comma_free key = true ->
  key <> tag ->
  count_occ string_dec (getBucketKeys db tag) key <= 1 ->
  let db1 := upsertInBucket key v1 tag db in
  let db2 := upsertInBucket key v2 tag db1 in
  getItem db2 key = Some v2 /\
  count_occ string_dec (getBucketKeys db2 tag) key = 1 /\
  getBucketKeys db2 tag = getBucketKeys db1 tag.
Proof.
  intros Hcf Hne Hcount db1 db2.
  assert (Hin : key ∈ getBucketKeys db1 tag).
  { unfold db1. rewrite upsertInBucket_keys by assumption.
    destruct (Js.indexOf key (getBucketKeys db tag)) as [i|] eqn:E.
    - apply indexOf_Some in E. eapply list_elem_of_lookup_2; eassumption.
    - apply elem_of_app. right. apply list_elem_of_singleton. reflexivity. }
  assert (Hsame : getBucketKeys db2 tag = getBucketKeys db1 tag).
  { unfold db2. rewrite upsertInBucket_keys by assumption.
    destruct (indexOf_elem _ _ Hin) as [i ->]. reflexivity. }
  split; [apply upsertInBucket_getItem|]. split; [|exact Hsame].
  rewrite Hsame. unfold db1. rewrite upsertInBucket_keys by assumption.
  destruct (Js.indexOf key (getBucketKeys db tag)) as [i|] eqn:E.
  - apply indexOf_Some, list_elem_of_lookup_2, list_elem_of_In in E.
    apply (count_occ_In string_dec) in E. lia.
  - apply indexOf_None in E. rewrite list_elem_of_In in E.
    apply (count_occ_not_In string_dec) in E.
    rewrite count_occ_app, E. simpl.
    destruct (string_dec key key); [reflexivity | congruence].
Qed.

Lemma upsert_same_key_twice_witness :
  let db1 := upsertInBucket "k" "v1" addressBucketTag ∅ in
  let db2 := upsertInBucket "k" "v2" addressBucketTag db1 in
  getItem db2 "k" = Some "v2" /\
  count_occ string_dec (getBucketKeys db2 addressBucketTag) "k" = 1 /\
  getBucketKeys db2 addressBucketTag = getBucketKeys db1 addressBucketTag.
Proof.
  apply (upsert_same_key_twice ∅ addressBucketTag "k" "v1" "v2").
  - reflexivity.
  - discriminate.
  - vm_compute. lia.
Defined.

(** C4: deleting the only member of a bucket removes the entry of the
    bucket tag from the store (no empty string is left under the tag), and
    the members then enumerate as the empty sequence. *)
Theorem delete_last_member (db : Storage) (tag key : string) :
  getBucketKeys db tag = [key] ->
  let db' := deleteInBucket key tag db in
  getItem db' tag = None /\
  getBucketKeys db' tag = [] /\
  getAllKeysInBucket db' tag = [].
Proof.
  intros H db'.
  assert (Htag : getItem db' tag = None).
  { unfold db', deleteInBucket. rewrite H. simpl.
    rewrite String.eqb_refl. simpl.
    unfold getItem, removeItem.
    destruct (decide (key = tag)) as [->|Hne].
    - apply lookup_delete_eq.
    - rewrite lookup_delete_ne by assumption. apply lookup_delete_eq. }
  assert (Hkeys : getBucketKeys db' tag = []).
  { unfold getBucketKeys. rewrite Htag. reflexivity. }
  auto using getAllKeysInBucket_empty.
Qed.

Lemma delete_last_member_witness :
  let db' := deleteInBucket "k" addressBucketTag (upsertAddress "k" "v" ∅) in
  getItem db' addressBucketTag = None /\
  getBucketKeys db' addressBucketTag = [] /\
  getAllKeysInBucket db' addressBucketTag = [].
Proof.
  apply (delete_last_member (upsertAddress "k" "v" ∅) addressBucketTag "k").
  vm_compute. reflexivity.
Defined.

(** ** Claims on reads *)

Lemma getValue_absent db key :
  getItem db key = None -> getValue db key = Throw (RepositoryError NotFound).
Proof. unfold getValue. intros ->. reflexivity. Qed.

Lemma getValueOfType_absent db key :
  getItem db key = None ->
  getValueOfType db key = Throw (RepositoryError NotFound).
Proof.
  intros H. unfold getValueOfType. rewrite getValue_absent by assumption.
  reflexivity.
Qed.

Lemma getContracts_empty db query :
  getBucketKeys db contractBucketTag = [] -> getContracts query db = Ok [].
Proof.
  intros H. unfold getContracts.
  rewrite getAllValuesInBucketOfType_empty by assumption. simpl.
  destruct query; reflexivity.
Qed.

(** C5: where the store has no entry under a key, every read of a single
    item ([getPrivKeyForAddress], [getPrivKeyForPubkey], [getContract], the
    read of [unreserveUtxo]) throws NotFound and [hasContract] answers
    false (it has no throwing outcome); on an empty bucket [getAddresses],
    [getUtxos] and [getContracts] return the empty sequence. *)
Theorem reads_of_absent_keys (db : Storage) (key : string) :
  getItem db key = None ->
  getPrivKeyForAddress db key = Throw (RepositoryError NotFound) /\
  getPrivKeyForPubkey db key = Throw (RepositoryError NotFound) /\
  getContract db key = Throw (RepositoryError NotFound) /\
  (forall txid vout, getUtxoKey txid vout = key ->
     unreserveUtxo txid vout db = Throw (RepositoryError NotFound)) /\
  hasContract db key = false /\
  (getBucketKeys db addressBucketTag = [] -> getAddresses db = []) /\
  (getBucketKeys db utxoBucketTag = [] -> getUtxos db = Ok []) /\
  (getBucketKeys db contractBucketTag = [] ->
     forall query, getContracts query db = Ok []).
Proof.
  intros H. repeat split.
  - apply getValue_absent, H.
  - apply getValue_absent, H.
  - apply getValueOfType_absent, H.
  - intros txid vout <-. unfold unreserveUtxo.
    rewrite getValueOfType_absent by assumption. reflexivity.
  - unfold hasContract. rewrite H. reflexivity.
  - apply getAllKeysInBucket_empty.
  - apply getAllValuesInBucketOfType_empty.
  - intros He query. apply getContracts_empty, He.
Qed.

Lemma reads_of_absent_keys_witness :
  getPrivKeyForAddress ∅ "ab01" = Throw (RepositoryError NotFound) /\
  getPrivKeyForPubkey ∅ "ab01" = Throw (RepositoryError NotFound) /\
  getContract ∅ "ab01" = Throw (RepositoryError NotFound) /\
  (forall txid vout, getUtxoKey txid vout = "ab01" ->
     unreserveUtxo txid vout ∅ = Throw (RepositoryError NotFound)) /\
  hasContract ∅ "ab01" = false /\
  (getBucketKeys ∅ addressBucketTag = [] -> getAddresses ∅ = []) /\
  (getBucketKeys ∅ utxoBucketTag = [] -> getUtxos ∅ = Ok []) /\
  (getBucketKeys ∅ contractBucketTag = [] ->
     forall query, getContracts query ∅ = Ok []).
Proof. apply (reads_of_absent_keys ∅ "ab01"). reflexivity. Defined.

(** C10: [hasContract] answers true exactly when the store has an entry
    under the identifier, whatever the bucket: so for the tag of a bucket
    that has members, for the location key once [saveLocation] was called,
    and for a key stored through the address, key pair or UTXO bucket. *)
Theorem hasContract_any_entry :
  (forall (db : Storage) id, hasContract db id = true <-> is_Some (getItem db id)) /\
  (forall (db : Storage) tag,
     getBucketKeys db tag <> [] -> hasContract db tag = true) /\
  (forall (db : Storage) location,
     hasContract (saveLocation location db) locationKey = true) /\
  (forall (db : Storage) address privkey,
     hasContract (upsertAddress address privkey db) address = true) /\
  (forall (db : Storage) publicKey privkey,
     hasContract (upsertKeyPair publicKey privkey db) publicKey = true) /\
  (forall (db db' : Storage) utxo key,
     utxoKeyOf utxo = Some key -> upsertUtxo utxo db = Ok db' ->
     hasContract db' key = true) /\
  (let db : Storage := upsertAddress "bc1q" "priv" ∅ in
   getBucketKeys db contractBucketTag = [] /\
   hasContract db "bc1q" = true /\
   hasContract db addressBucketTag = true).
Proof.
  assert (Hup : forall key value tag db,
             hasContract (upsertInBucket key value tag db) key = true).
  { intros. unfold hasContract. rewrite upsertInBucket_getItem. reflexivity. }
  repeat split.
  - unfold hasContract. destruct (getItem db id); [eauto | discriminate].
  - unfold hasContract. intros [? H]. rewrite H. reflexivity.
  - intros db tag. unfold hasContract, getBucketKeys.
    destruct (getItem db tag); congruence.
  - intros db location. unfold hasContract, saveLocation, getItem, setItem.
    rewrite lookup_insert_eq. reflexivity.
  - intros. apply Hup.
  - intros. apply Hup.
  - intros db db' utxo key Hk. unfold upsertUtxo. rewrite Hk.
    intros [= <-]. apply Hup.
Qed.

(** ** The order of the own keys of an object *)

Lemma array_index_canonical k n : Js.array_index k = Some n -> k = Js.dec n.
Proof.
  unfold Js.array_index.
  destruct (DecimalString.NilEmpty.uint_of_string k) as [d|]; [|discriminate].
  destruct (String.eqb_spec (Js.dec (N.of_uint d)) k) as [E|]; [|discriminate].
  simpl. destruct (N.of_uint d <? 4294967295)%N; [|discriminate].
  intros [= <-]. symmetry. exact E.
Qed.

Lemma array_index_inj a b n :
  Js.array_index a = Some n -> Js.array_index b = Some n -> a = b.
Proof.
  intros Ha%array_index_canonical Hb%array_index_canonical. congruence.
Qed.

Lemma key_before_irrefl k : Js.key_before k k = false.
Proof.
  unfold Js.key_before. destruct (Js.array_index k); [|reflexivity].
  apply N.ltb_irrefl.
Qed.

Lemma key_before_asym a b :
  Js.key_before a b = true -> Js.key_before b a = false.
Proof.
  unfold Js.key_before.
  destruct (Js.array_index a), (Js.array_index b); try congruence.
  rewrite N.ltb_lt, N.ltb_ge. lia.
Qed.

Lemma key_before_trans a b c :
  Js.key_before a b = true -> Js.key_before b c = true ->
  Js.key_before a c = true.
Proof.
  unfold Js.key_before.
  destruct (Js.array_index a), (Js.array_index b), (Js.array_index c);
    try congruence.
  rewrite !N.ltb_lt. lia.
Qed.

Lemma key_before_not_index a b : is_index a = false -> Js.key_before a b = false.
Proof.
  unfold is_index, Js.key_before. destruct (Js.array_index a); congruence.
Qed.

Section object_keys.
Context {V : Type}.
Implicit Types (o : list (string * V)) (k : string) (v : V).

Lemma obj_get_None k o : Js.obj_get k o = None <-> k ∉ map fst o.
Proof.
  induction o as [|[k' v'] o IH]; simpl.
  - split; [intros _; apply not_elem_of_nil | reflexivity].
  - rewrite not_elem_of_cons. destruct (String.eqb_spec k' k) as [->|Hne].
    + split; [discriminate | intros [H _]; congruence].
    + rewrite IH. split; [intros H; split; [congruence | exact H] | intros [_ H]; exact H].
Qed.

Lemma obj_insert_not_index k v o :
  is_index k = false -> Js.obj_insert k v o = (o ++ [(k, v)])%list.
Proof.
  intros Hk. induction o as [|[k' v'] o IH]; simpl; [reflexivity|].
  rewrite key_before_not_index by assumption. rewrite IH. reflexivity.
Qed.

Lemma obj_insert_perm k v o :
  Permutation (map fst (Js.obj_insert k v o)) (k :: map fst o).
Proof.
  induction o as [|[k' v'] o IH]; simpl; [reflexivity|].
  destruct (Js.key_before k k'); simpl; [reflexivity|].
  rewrite IH. apply perm_swap.
Qed.

Lemma obj_insert_filter_index k v o :
  is_index k = true ->
  filter (fun x => is_index x = false) (map fst (Js.obj_insert k v o)) =
  filter (fun x => is_index x = false) (map fst o).
Proof.
  intros Hk. induction o as [|[k' v'] o IH]; simpl.
  - rewrite filter_cons_False by congruence. reflexivity.
  - destruct (Js.key_before k k'); simpl.
    + rewrite (filter_cons_False _ k) by congruence. reflexivity.
    + rewrite !filter_cons, IH. reflexivity.
Qed.

Lemma obj_insert_ordered k v o :
  ordered (map fst o) -> ordered (map fst (Js.obj_insert k v o)).
Proof.
  unfold ordered. induction o as [|[k' v'] o IH]; simpl; intros Ho.
  - repeat constructor.
  - inversion Ho as [|? ? Hs Hall]; subst.
    destruct (Js.key_before k k') eqn:E; simpl.
    + constructor; [exact Ho|]. constructor.
      * apply key_before_asym, E.
      * rewrite Forall_forall in Hall |- *. intros x Hx.
        destruct (Js.key_before x k) eqn:Ex; [|reflexivity].
        specialize (Hall x Hx).
        rewrite (key_before_trans _ _ _ Ex E) in Hall. discriminate.
    + constructor; [apply IH, Hs|].
      rewrite Forall_forall in Hall |- *. intros x Hx.
      rewrite (obj_insert_perm k v o) in Hx.
      apply elem_of_cons in Hx as [->|Hx]; [exact E|]. apply Hall, Hx.
Qed.

End object_keys.

Section object_fill.
Context {V : Type}.
Implicit Types (o : list (string * option V)) (k : string).
Variable f : string -> option V.

Lemma obj_insert_perm_props {W} k (v : W) (o : list (string * W)) :
  Permutation (Js.obj_insert k v o) ((k, v) :: o).
Proof.
  induction o as [|[k' v'] o IH]; simpl; [reflexivity|].
  destruct (Js.key_before k k'); [reflexivity|].
  rewrite IH. apply perm_swap.
Qed.

Lemma obj_define_fresh {W} k (v : W) (o : list (string * W)) :
  k ∉ map fst o -> Js.obj_define k v o = Js.obj_insert k v o.
Proof.
  intros H%obj_get_None. unfold Js.obj_define. rewrite H. reflexivity.
Qed.

Lemma assign_props k v (d : Js.dict V) :
  k <> "__proto__" ->
  Js.props (Js.assign k v d) = Js.obj_define k v (Js.props d).
Proof.
  intros Hk. unfold Js.assign.
  destruct (String.eqb_spec k "__proto__"); [contradiction|]. reflexivity.
Qed.

Lemma fill_props ks (d : Js.dict V) :
  "__proto__" ∉ ks ->
  Js.props (fold_left (fun ret key => Js.assign key (f key) ret) ks d) =
  fold_left (fun p key => Js.obj_define key (f key) p) ks (Js.props d).
Proof.
  revert d. induction ks as [|k ks IH]; intros d Hp; simpl; [reflexivity|].
  apply not_elem_of_cons in Hp as [Hk Hp].
  rewrite IH by assumption. rewrite assign_props by congruence. reflexivity.
Qed.

Lemma fill_spec ks o :
  NoDup ks -> (forall k, k ∈ ks -> k ∉ map fst o) ->
  let p := fold_left (fun p key => Js.obj_define key (f key) p) ks o in
  Permutation p (o ++ map (fun k => (k, f k)) ks) /\
  filter (fun x => is_index x = false) (map fst p) =
    (filter (fun x => is_index x = false) (map fst o)
     ++ filter (fun x => is_index x = false) ks)%list /\
  (ordered (map fst o) -> ordered (map fst p)).
Proof.
  revert o. induction ks as [|k ks IH]; intros o Hnd Hfresh; simpl.
  - rewrite !app_nil_r. auto.
  - apply NoDup_cons in Hnd as [Hk Hnd].
    assert (Hko : k ∉ map fst o) by (apply Hfresh; left).
    rewrite obj_define_fresh by assumption.
    destruct (IH (Js.obj_insert k (f k) o) Hnd) as (Hperm & Hfil & Hord).
    { intros k' Hk'. rewrite (obj_insert_perm k (f k) o).
      apply not_elem_of_cons. split; [intros ->; contradiction|].
      apply Hfresh. right. exact Hk'. }
    split; [|split].
    + rewrite Hperm, (obj_insert_perm_props k (f k) o).
      simpl. apply Permutation_middle.
    + rewrite Hfil. destruct (is_index k) eqn:Ek.
      * rewrite obj_insert_filter_index by assumption.
        rewrite (filter_cons_False _ k) by congruence. reflexivity.
      * rewrite obj_insert_not_index by assumption.
        rewrite map_app, filter_app. simpl map.
        rewrite (filter_cons_True _ k ks), (filter_cons_True _ k []) by assumption.
        rewrite filter_nil, <- app_assoc. reflexivity.
    + intros Ho. apply Hord, obj_insert_ordered, Ho.
Qed.

End object_fill.

Lemma getAllKeyValuesInBucket_spec (db : Storage) tag :
  NoDup (getBucketKeys db tag) ->
  "__proto__" ∉ getBucketKeys db tag ->
  let p := Js.props (getAllKeyValuesInBucket db tag) in
  Permutation p (map (fun k => (k, getItem db k)) (getBucketKeys db tag)) /\
  filter (fun x => is_index x = false) (map fst p) =
    filter (fun x => is_index x = false) (getBucketKeys db tag) /\
  ordered (map fst p).
Proof.
  intros Hnd Hp. unfold getAllKeyValuesInBucket. cbv zeta.
  rewrite (fill_props (getItem db)) by assumption.
  destruct (fill_spec (getItem db) (getBucketKeys db tag) [] Hnd)
    as (H1 & H2 & H3).
  { intros k _. apply not_elem_of_nil. }
  split; [exact H1|]. split; [exact H2|]. apply H3. constructor.
Qed.

Lemma filter_all {A} (P : A -> Prop) `{forall x, Decision (P x)} (l : list A) :
  Forall P l -> filter P l = l.
Proof.
  induction 1 as [|x l Hx Hl IH]; [reflexivity|].
  rewrite filter_cons_True by assumption. rewrite IH. reflexivity.
Qed.

Lemma upsertAll_keys tag kvs (db : Storage) :
  NoDup (map fst kvs) ->
  Forall (fun k => comma_free k = true /\ k <> tag) (map fst kvs) ->
  (forall k, k ∈ map fst kvs -> k ∉ getBucketKeys db tag) ->
  getBucketKeys (upsertAll tag kvs db) tag =
    (getBucketKeys db tag ++ map fst kvs)%list.
Proof.
  revert db. induction kvs as [|[k v] kvs IH]; intros db Hnd Hok Hfresh; simpl.
  - rewrite app_nil_r. reflexivity.
  - simpl in Hnd, Hok. apply NoDup_cons in Hnd as [Hk Hnd].
    inversion Hok as [|? ? [Hcf Hne] Hok']; subst.
    assert (Hkeys : getBucketKeys (upsertInBucket k v tag db) tag =
                    (getBucketKeys db tag ++ [k])%list).
    { rewrite upsertInBucket_keys by assumption.
      assert (Hn : k ∉ getBucketKeys db tag) by (apply Hfresh; left).
      apply indexOf_None in Hn. rewrite Hn. reflexivity. }
    unfold upsertAll in IH |- *. rewrite IH; try assumption.
    + rewrite Hkeys, <- app_assoc. reflexivity.
    + intros k' Hk'. rewrite Hkeys. rewrite not_elem_of_app. split.
      * apply Hfresh. right. exact Hk'.
      * rewrite list_elem_of_singleton. intros ->. contradiction.
Qed.

(** ** Claim on the enumeration of keys *)

(** C9, as the code has it: after upserts of pairwise distinct keys into
    an empty bucket (keys free of the delimiter, none the bucket tag or
    ["__proto__"]), the enumeration of the bucket returns every upserted key
    exactly once; the keys that are not array indices come in the order of
    their first upsert, after the keys that are array indices, which come
    in ascending numeric order. Without array indices among the keys the
    enumeration is the insertion order. *)
Theorem enumeration_after_upserts (db : Storage) (tag : string)
  (kvs : list (string * string)) :
  getBucketKeys db tag = [] ->
  NoDup (map fst kvs) ->
  Forall (fun k => comma_free k = true /\ k <> tag) (map fst kvs) ->
  "__proto__" ∉ map fst kvs ->
  let keys := getAllKeysInBucket (upsertAll tag kvs db) tag in
  NoDup keys /\
  Permutation keys (map fst kvs) /\
  filter (fun k => is_index k = false) keys =
    filter (fun k => is_index k = false) (map fst kvs) /\
  ordered keys /\
  (Forall (fun k => is_index k = false) (map fst kvs) -> keys = map fst kvs).
Proof.
  intros Hempty Hnd Hok Hproto keys.
  assert (Hkeys : getBucketKeys (upsertAll tag kvs db) tag = map fst kvs).
  { rewrite upsertAll_keys; try assumption.
    - rewrite Hempty. reflexivity.
    - intros k _. rewrite Hempty. apply not_elem_of_nil. }
  destruct (getAllKeyValuesInBucket_spec (upsertAll tag kvs db) tag)
    as (Hperm & Hfil & Hord).
  { rewrite Hkeys. exact Hnd. }
  { rewrite Hkeys. exact Hproto. }
  rewrite Hkeys in Hperm, Hfil.
  assert (Hp : Permutation keys (map fst kvs)).
  { unfold keys, getAllKeysInBucket, Js.for_in. rewrite Hperm.
    rewrite map_map. simpl. rewrite map_id. reflexivity. }
  split; [rewrite Hp; exact Hnd|]. split; [exact Hp|].
  split; [exact Hfil|]. split; [exact Hord|].
  intros Hall. rewrite <- (filter_all _ (map fst kvs) Hall).
  rewrite <- Hfil. symmetry. apply filter_all.
  fold (Js.for_in (getAllKeyValuesInBucket (upsertAll tag kvs db) tag)).
  fold (getAllKeysInBucket (upsertAll tag kvs db) tag). fold keys.
  rewrite Forall_forall in Hall |- *. intros k Hk. apply Hall.
  rewrite <- Hp. exact Hk.
Qed.

Lemma enumeration_after_upserts_witness :
  let keys :=
    getAllKeysInBucket
      (upsertAll addressBucketTag [("b", "x"); ("7", "y"); ("a", "z"); ("2", "w")] ∅)
      addressBucketTag in
  NoDup keys /\
  Permutation keys ["b"; "7"; "a"; "2"] /\
  filter (fun k => is_index k = false) keys =
    filter (fun k => is_index k = false) ["b"; "7"; "a"; "2"] /\
  ordered keys /\
  (Forall (fun k => is_index k = false) ["b"; "7"; "a"; "2"] ->
   keys = ["b"; "7"; "a"; "2"]).
Proof.
  apply (enumeration_after_upserts ∅ addressBucketTag
           [("b", "x"); ("7", "y"); ("a", "z"); ("2", "w")]).
  - reflexivity.
  - apply NoDup_ListNoDup, (NoDup_count_occ' string_dec).
    intros k Hk. simpl in Hk.
    repeat (destruct Hk as [<-|Hk]; [vm_compute; reflexivity|]). destruct Hk.
  - repeat constructor; discriminate.
  - intros H. apply list_elem_of_In in H. simpl in H.
    repeat (destruct H as [H|H]; [discriminate|]). destruct H.
Defined.

(** C9 as stated fails: upserted in the order "2", "1", two addresses
    are enumerated in the order "1", "2". *)
Lemma insertion_order_counterexample :
  ~ (forall kvs : list (string * string),
       NoDup (map fst kvs) ->
       getAddresses (upsertAll addressBucketTag kvs ∅) = map fst kvs).
Proof.
  intros H. specialize (H [("2", "a"); ("1", "b")]).
  assert (Hnd : NoDup (map fst [("2", "a"); ("1", "b")])).
  { apply NoDup_cons. split.
    - rewrite list_elem_of_singleton. discriminate.
    - apply NoDup_singleton. }
  specialize (H Hnd). vm_compute in H. discriminate.
Qed.

(** ** [JSON.parse] after [JSON.stringify] *)

Lemma append_assoc (a b c : string) : (a ++ b) ++ c = a ++ (b ++ c).
Proof. induction a as [|x a IH]; simpl; [reflexivity | rewrite IH; reflexivity]. Qed.

Lemma parse_chars_escape c t :
  Json.parse_chars (Json.escape c ++ t) = Json.cons_char c (Json.parse_chars t).
Proof.
  destruct c as [b0 b1 b2 b3 b4 b5 b6 b7].
  destruct b0, b1, b2, b3, b4, b5, b6, b7; reflexivity.
Qed.

Lemma parse_chars_quote s rest :
  Json.parse_chars (Json.quote_chars s ++ rest) = Some (s, rest).
Proof.
  induction s as [|c s IH]; simpl.
  - reflexivity.
  - rewrite append_assoc, parse_chars_escape, IH. reflexivity.
Qed.

Lemma span_digits_uint d rest :
  match rest with String c _ => Json.is_digit c = false | EmptyString => True end ->
  Json.span_digits (DecimalString.NilEmpty.string_of_uint d ++ rest) =
    (DecimalString.NilEmpty.string_of_uint d, rest).
Proof.
  intros Hr. induction d; simpl; try (rewrite IHd; reflexivity).
  destruct rest as [|c r]; [reflexivity|]. simpl. rewrite Hr. reflexivity.
Qed.

Lemma nzhead_head d :
  match Decimal.nzhead d with Decimal.D0 _ => False | _ => True end.
Proof. induction d; simpl; auto. Qed.

Lemma to_uint_canonical n :
  N.to_uint n = Decimal.D0 Decimal.Nil \/
  match N.to_uint n with
  | Decimal.D0 _ | Decimal.Nil => False
  | _ => True
  end.
Proof.
  assert (H : N.to_uint n = Decimal.unorm (N.to_uint n)).
  { rewrite <- DecimalN.Unsigned.to_of, DecimalN.Unsigned.of_to. reflexivity. }
  rewrite H. unfold Decimal.unorm.
  pose proof (nzhead_head (N.to_uint n)) as Hh.
  destruct (Decimal.nzhead (N.to_uint n)); auto.
Qed.

Lemma follow_ok_cases rest :
  follow_ok rest = true ->
  rest = EmptyString \/ exists r, rest = String "," r \/ rest = String "]" r \/ rest = String "}" r.
Proof.
  destruct rest as [|c r]; [auto|]. simpl. intros H. right. exists r.
  destruct (Ascii.eqb_spec c ","); [subst; auto|].
  destruct (Ascii.eqb_spec c "]"); [subst; auto|].
  destruct (Ascii.eqb_spec c "}"); [subst; auto|]. discriminate.
Qed.

Lemma parse_nat_dec n rest :
  follow_ok rest = true ->
  Json.parse_nat (Js.dec n ++ rest) = Some (n, rest).
Proof.
  intros Hr. unfold Json.parse_nat, Js.dec.
  rewrite span_digits_uint.
  2:{ apply follow_ok_cases in Hr as [->|[r [->|[->| ->]]]]; simpl; auto. }
  assert (Hmore : match rest with
                  | String c' _ => Ascii.eqb c' "." || Ascii.eqb c' "e" || Ascii.eqb c' "E"
                  | EmptyString => false
                  end = false).
  { apply follow_ok_cases in Hr as [->|[r [->|[->| ->]]]]; reflexivity. }
  rewrite Hmore.
  pose proof (DecimalString.NilEmpty.usu (N.to_uint n)) as Husu.
  pose proof (DecimalN.Unsigned.of_to n) as Hof.
  destruct (to_uint_canonical n) as [E|E].
  - rewrite E in *. simpl. rewrite <- Hof. reflexivity.
  - destruct (N.to_uint n) eqn:Ed; try contradiction;
      cbn [DecimalString.NilEmpty.string_of_uint];
      cbn [DecimalString.NilEmpty.string_of_uint] in Husu;
      cbn [Ascii.eqb Bool.eqb andb]; rewrite Husu, Hof; reflexivity.
Qed.

Lemma parse_number_to_string n rest :
  follow_ok rest = true ->
  Json.parse_number (Json.number_to_string n ++ rest) = Some (n, rest).
Proof.
  intros Hr. destruct n as [|p|p].
  - apply follow_ok_cases in Hr as [->|[r [->|[->| ->]]]]; reflexivity.
  - pose proof (parse_nat_dec (Npos p) rest Hr) as H.
    unfold Json.parse_number. cbn [Json.number_to_string].
    destruct (Js.dec (N.pos p) ++ rest) as [|c s] eqn:E; [discriminate|].
    destruct (Ascii.eqb_spec c "-") as [->|Hc].
    + exfalso. unfold Json.parse_nat in H. simpl in H. discriminate.
    + rewrite H. reflexivity.
  - simpl. rewrite parse_nat_dec by assumption. reflexivity.
Qed.

Lemma json_ind' (P : json -> Prop) :
  P JNull -> (forall b, P (JBool b)) -> (forall n, P (JNum n)) ->
  (forall s, P (JStr s)) ->
  (forall l, Forall P l -> P (JArr l)) ->
  (forall o, Forall (fun kv => P (snd kv)) o -> P (JObj o)) ->
  forall v, P v.
Proof.
  intros HN HB HNu HS HA HO. fix IH 1.
  intros [ | b | n | s | l | o]; [exact HN | apply HB | apply HNu | apply HS | | ].
  - apply HA. induction l as [|x l IHl]; constructor; [apply IH | exact IHl].
  - apply HO. induction o as [|[k v] o IHo]; constructor; [apply IH | exact IHo].
Qed.

Lemma dec_head n : exists c s, Js.dec n = String c s /\ Json.is_digit c = true.
Proof.
  unfold Js.dec. destruct (to_uint_canonical n) as [E|E].
  - rewrite E. simpl. eauto.
  - destruct (N.to_uint n); try contradiction; simpl; eauto.
Qed.

Lemma parse_value_number f c s :
  c = "-"%char \/ Json.is_digit c = true ->
  Json.parse_value (S f) (String c s) =
    match Json.parse_number (String c s) with
    | Some (n, r) => Some (JNum n, r)
    | None => None
    end.
Proof.
  intros H. destruct c as [b0 b1 b2 b3 b4 b5 b6 b7].
  destruct b0, b1, b2, b3, b4, b5, b6, b7;
    try reflexivity; exfalso; destruct H as [H|H]; discriminate.
Qed.

Lemma number_to_string_head n rest :
  exists c s, Json.number_to_string n ++ rest = String c s /\
              (c = "-"%char \/ Json.is_digit c = true).
Proof.
  destruct n as [|p|p]; simpl.
  - eexists _, _. split; [reflexivity|]. right. reflexivity.
  - destruct (dec_head (Npos p)) as (c & s & -> & Hc). simpl. eauto.
  - eauto.
Qed.

Lemma stringify_head v :
  exists c s, Json.stringify v = String c s /\ Json.is_ws c = false /\
              c <> "]"%char /\ c <> "}"%char.
Proof.
  assert (Hk : forall c s, Json.is_ws c = false /\ c <> "]"%char /\ c <> "}"%char ->
            exists c' s', String c s = String c' s' /\ Json.is_ws c' = false /\
                          c' <> "]"%char /\ c' <> "}"%char) by eauto.
  destruct v as [ | [|] | n | s | l | o]; cbn [Json.stringify]; unfold Json.quote;
    try (apply Hk; repeat split; discriminate).
  destruct (number_to_string_head n EmptyString) as (c & s & E & Hc).
  destruct (Json.number_to_string n) as [|c' s'] eqn:En; simpl in E; [discriminate|].
  injection E as -> _. apply Hk.
  destruct Hc as [->|Hc]; [repeat split; discriminate|].
  destruct c as [b0 b1 b2 b3 b4 b5 b6 b7].
  destruct b0, b1, b2, b3, b4, b5, b6, b7; try discriminate; repeat split; discriminate.
Qed.

Lemma keys_ordered_app_cons l1 k l2 :
  keys_ordered (l1 ++ k :: l2) = true ->
  forall k', k' ∈ l1 -> Js.key_before k k' = false /\ k <> k'.
Proof.
  induction l1 as [|k0 l1 IH]; simpl; intros H k' Hk'.
  - apply elem_of_nil in Hk' as [].
  - apply andb_prop in H as [Hall Hord].
    apply elem_of_cons in Hk' as [->|Hk']; [|apply IH; assumption].
    rewrite forallb_forall in Hall. specialize (Hall k).
    rewrite in_app_iff in Hall. specialize (Hall (or_intror (or_introl eq_refl))).
    apply andb_prop in Hall as [H1 H2].
    apply negb_true_iff in H1, H2. split; [exact H1|].
    intros ->. rewrite String.eqb_refl in H2. discriminate.
Qed.

Lemma obj_insert_last {V} k (v : V) (o : list (string * V)) :
  (forall k', k' ∈ map fst o -> Js.key_before k k' = false) ->
  Js.obj_insert k v o = (o ++ [(k, v)])%list.
Proof.
  induction o as [|[k' v'] o IH]; simpl; intros H; [reflexivity|].
  rewrite H by left. rewrite IH; [reflexivity|].
  intros k'' Hk''. apply H. right. exact Hk''.
Qed.

Lemma build_object_from (o2 o1 : jsobj) :
  keys_ordered (map fst (o1 ++ o2)) = true ->
  fold_left (fun o kv => Js.obj_define (fst kv) (snd kv) o) o2 o1 = (o1 ++ o2)%list.
Proof.
  revert o1. induction o2 as [|[k v] o2 IH]; intros o1 H; simpl.
  - rewrite app_nil_r. reflexivity.
  - rewrite map_app in H. simpl in H.
    pose proof (keys_ordered_app_cons _ _ _ H) as Hk.
    rewrite obj_define_fresh by (intros Hin; apply Hk in Hin as [_ Hne]; congruence).
    rewrite obj_insert_last by (intros k' Hin; apply Hk, Hin).
    rewrite IH; rewrite <- app_assoc; [reflexivity|].
    rewrite map_app. exact H.
Qed.

Lemma build_object_ordered o :
  keys_ordered (map fst o) = true -> Json.build_object o = o.
Proof. intros H. apply (build_object_from o []). exact H. Qed.

Lemma join_cons2 sep a b l :
  Js.join sep (a :: b :: l) = a ++ String sep (Js.join sep (b :: l)).
Proof. reflexivity. Qed.

Lemma parse_elements_S f s :
  Json.parse_elements (S f) s =
    match Json.parse_value f s with
    | Some (v, r) =>
        match Json.skip_ws r with
        | String c r' =>
            if Ascii.eqb c "," then
              match Json.parse_elements f r' with
              | Some (vs, r'') => Some (v :: vs, r'')
              | None => None
              end
            else if Ascii.eqb c "]" then Some ([v], r')
            else None
        | EmptyString => None
        end
    | None => None
    end.
Proof. reflexivity. Qed.

Lemma skip_ws_head c s :
  Json.is_ws c = false -> Json.skip_ws (String c s) = String c s.
Proof. intros H. simpl. rewrite H. reflexivity. Qed.

(** The parser meets the token it expects. *)
Ltac token := rewrite skip_ws_head by reflexivity; rewrite Ascii.eqb_refl.

Lemma parse_elements_stringify l :
  Forall parses l -> l <> [] -> forallb well_formed l = true ->
  forall f rest, list_sum (map (fun x => S (size x)) l) <= f ->
  Json.parse_elements f (Js.join "," (map Json.stringify l) ++ String "]" rest)
    = Some (l, rest).
Proof.
  induction 1 as [|v l Hv Hl IH]; [congruence|]. intros _ Hwf f rest Hf.
  simpl in Hwf. apply andb_prop in Hwf as [Hwv Hwl].
  simpl in Hf. destruct f as [|f]; [lia|].
  rewrite parse_elements_S. destruct l as [|v' l'].
  - cbn [map Js.join]. rewrite (Hv Hwv) by (simpl in *; (lia || reflexivity)).
    reflexivity.
  - cbn [map]. rewrite join_cons2, append_assoc. cbn [String.append].
    rewrite (Hv Hwv) by (simpl in *; (lia || reflexivity)).
    token.
    change (Json.stringify v' :: map Json.stringify l') with (map Json.stringify (v' :: l')).
    rewrite IH; [reflexivity | discriminate | exact Hwl | simpl in *; lia].
Qed.

Lemma parse_members_S f s :
  Json.parse_members (S f) s =
    match Json.skip_ws s with
    | String q s1 =>
        if Ascii.eqb q Json.dquote then
          match Json.parse_chars s1 with
          | Some (k, r) =>
              match Json.skip_ws r with
              | String c r1 =>
                  if Ascii.eqb c ":" then
                    match Json.parse_value f r1 with
                    | Some (v, r2) =>
                        match Json.skip_ws r2 with
                        | String c2 r3 =>
                            if Ascii.eqb c2 "," then
                              match Json.parse_members f r3 with
                              | Some (ms, r4) => Some ((k, v) :: ms, r4)
                              | None => None
                              end
                            else if Ascii.eqb c2 "}" then Some ([(k, v)], r3)
                            else None
                        | EmptyString => None
                        end
                    | None => None
                    end
                  else None
              | EmptyString => None
              end
          | None => None
          end
        else None
    | EmptyString => None
    end.
Proof. reflexivity. Qed.

Lemma member_app k v t :
  member (k, v) ++ t =
  String Json.dquote (Json.quote_chars k ++ String ":" (Json.stringify v ++ t)).
Proof.
  unfold member, Json.quote. cbn [fst snd String.append].
  rewrite append_assoc. reflexivity.
Qed.

Lemma parse_members_stringify (o : jsobj) :
  Forall (fun kv => parses (snd kv)) o -> o <> [] ->
  forallb (fun kv => well_formed (snd kv)) o = true ->
  forall f rest, list_sum (map (fun kv => S (size (snd kv))) o) <= f ->
  Json.parse_members f (Js.join "," (map member o) ++ String "}" rest)
    = Some (o, rest).
Proof.
  induction 1 as [|[k v] o Hv Ho IH]; [congruence|]. intros _ Hwf f rest Hf.
  simpl in Hwf, Hv. apply andb_prop in Hwf as [Hwv Hwo].
  simpl in Hf. destruct f as [|f]; [lia|].
  rewrite parse_members_S. destruct o as [|kv' o'].
  - cbn [map Js.join]. rewrite member_app.
    token.
    rewrite parse_chars_quote. token.
    rewrite (Hv Hwv) by (simpl in *; (lia || reflexivity)).
    reflexivity.
  - cbn [map]. rewrite join_cons2, append_assoc, member_app.
    cbn [String.append].
    token.
    rewrite parse_chars_quote. token.
    rewrite (Hv Hwv) by (simpl in *; (lia || reflexivity)).
    token.
    change (member kv' :: map member o') with (map member (kv' :: o')).
    rewrite IH; [reflexivity | discriminate | exact Hwo | simpl in *; lia].
Qed.

Lemma parse_value_stringify v : parses v.
Proof.
  induction v as [ | b | n | s | l IH | o IH] using json_ind';
    intros Hwf f rest Hf Hr; (destruct f as [|f]; [simpl in Hf; lia|]).
  - reflexivity.
  - destruct b; reflexivity.
  - cbn [Json.stringify].
    destruct (number_to_string_head n rest) as (c & s & E & Hc).
    rewrite E, parse_value_number by assumption. rewrite <- E.
    rewrite parse_number_to_string by assumption. reflexivity.
  - cbn [Json.stringify]. unfold Json.quote. cbn [String.append].
    change (Json.parse_value (S f) (String Json.dquote (Json.quote_chars s ++ rest)))
      with (match Json.parse_chars (Json.quote_chars s ++ rest) with
            | Some (str, r) => Some (JStr str, r)
            | None => None
            end).
    rewrite parse_chars_quote. reflexivity.
  - cbn [Json.stringify String.append]. rewrite append_assoc. cbn [String.append].
    change (Json.parse_value (S f) (String "[" ?s'))
      with (match Json.skip_ws s' with
            | String c1 r1 =>
                if Ascii.eqb c1 "]" then Some (JArr [], r1)
                else match Json.parse_elements f s' with
                     | Some (vs, r) => Some (JArr vs, r)
                     | None => None
                     end
            | EmptyString => None
            end).
    destruct l as [|v l]; [reflexivity|].
    rewrite parse_elements_stringify;
      [ | exact IH | discriminate | exact Hwf | simpl in Hf |- *; lia ].
    cbn [map]. destruct (stringify_head v) as (c & s & E & Hws & Hc1 & Hc2).
    destruct l as [|v' l'].
    + cbn [map Js.join]. rewrite E. cbn [String.append].
      rewrite skip_ws_head by assumption.
      destruct (Ascii.eqb_spec c "]"); [contradiction | reflexivity].
    + cbn [map]. rewrite join_cons2, E. cbn [String.append].
      rewrite skip_ws_head by assumption.
      destruct (Ascii.eqb_spec c "]"); [contradiction | reflexivity].
  - cbn [Json.stringify String.append]. rewrite append_assoc. cbn [String.append].
    change (Json.parse_value (S f) (String "{" ?s'))
      with (match Json.skip_ws s' with
            | String c1 r1 =>
                if Ascii.eqb c1 "}" then Some (JObj [], r1)
                else match Json.parse_members f s' with
                     | Some (ms, r) => Some (JObj (Json.build_object ms), r)
                     | None => None
                     end
            | EmptyString => None
            end).
    destruct o as [|[k v] o]; [reflexivity|].
    cbn [well_formed] in Hwf. apply andb_prop in Hwf as [Hord Hwf].
    fold member.
    rewrite parse_members_stringify;
      [ | exact IH | discriminate | exact Hwf | simpl in Hf |- *; lia ].
    rewrite build_object_ordered by assumption.
    destruct o as [|kv' o'].
    + cbn [map Js.join]. rewrite member_app. rewrite skip_ws_head by reflexivity.
      reflexivity.
    + cbn [map]. rewrite join_cons2, append_assoc, member_app.
      rewrite skip_ws_head by reflexivity. reflexivity.
Qed.

Lemma length_append (a b : string) :
  String.length (a ++ b) = String.length a + String.length b.
Proof. induction a as [|c a IH]; simpl; [reflexivity | rewrite IH; reflexivity]. Qed.

Lemma append_empty_r (a : string) : a ++ EmptyString = a.
Proof. induction a as [|c a IH]; simpl; [reflexivity | rewrite IH; reflexivity]. Qed.

Lemma sum_sizes_le_join {A} (sz : A -> nat) (str : A -> string) (l : list A) :
  Forall (fun x => sz x <= String.length (str x)) l ->
  list_sum (map (fun x => S (sz x)) l) <= S (String.length (Js.join "," (map str l))).
Proof.
  induction 1 as [|x l Hx Hl IH]; [simpl; lia|].
  destruct l as [|y l'].
  - simpl. lia.
  - cbn [map] in *. rewrite join_cons2, length_append.
    cbn [list_sum fold_right String.length] in *. lia.
Qed.

Lemma size_le_length v : size v <= String.length (Json.stringify v).
Proof.
  induction v as [ | b | n | s | l IH | o IH] using json_ind'.
  - simpl. lia.
  - destruct b; simpl; lia.
  - destruct (number_to_string_head n EmptyString) as (c & s & E & _).
    rewrite append_empty_r in E. cbn [Json.stringify size]. rewrite E. simpl. lia.
  - simpl. lia.
  - cbn [Json.stringify size String.length]. rewrite length_append.
    pose proof (sum_sizes_le_join size Json.stringify l IH). simpl. lia.
  - cbn [Json.stringify size String.length]. rewrite length_append.
    fold member.
    assert (H : Forall (fun kv => size (snd kv) <= String.length (member kv)) o).
    { eapply Forall_impl; [exact IH|]. intros [k v] Hkv. simpl in Hkv.
      unfold member. rewrite length_append. simpl. lia. }
    pose proof (sum_sizes_le_join (fun kv => size (snd kv)) member o H). simpl. lia.
Qed.

Lemma parse_stringify v :
  well_formed v = true -> Json.parse (Json.stringify v) = Some v.
Proof.
  intros Hwf. unfold Json.parse.
  rewrite <- (append_empty_r (Json.stringify v)) at 2.
  rewrite parse_value_stringify; [reflexivity | exact Hwf | | reflexivity].
  pose proof (size_le_length v). lia.
Qed.

Lemma getValueOfType_upsertValueInBucket key value tag db :
  well_formed value = true ->
  getValueOfType (upsertValueInBucket key value tag db) key = Ok value.
Proof.
  intros Hwf. unfold getValueOfType, upsertValueInBucket, getValue.
  rewrite upsertInBucket_getItem. simpl.
  rewrite parse_stringify by assumption. reflexivity.
Qed.

(** C8: for every record (a UTXO or a contract: an object whose values
    are JSON values), parsing the text that [JSON.stringify] gives for it
    returns the record; so a record stored by [upsertValueInBucket] is read
    back by [getValueOfType] as it was. *)
Theorem record_round_trip (record : jsobj) (db : Storage) (key tag : string) :
  well_formed (JObj record) = true ->
  Json.parse (Json.stringify (JObj record)) = Some (JObj record) /\
  getValueOfType (upsertValueInBucket key (JObj record) tag db) key
    = Ok (JObj record).
Proof.
  intros Hwf. split.
  - apply parse_stringify, Hwf.
  - apply getValueOfType_upsertValueInBucket, Hwf.
Qed.

Lemma record_round_trip_witness :
  let record :=
    [("txid", JStr "ab12"); ("vout", JNum 1); ("amount", JNum 5000);
     ("address", JStr "bc1q"); ("reserved", JBool true);
     ("path", JArr [JNum 0; JNum (-3); JNull]);
     ("script", JObj [("7", JStr "x"); ("asm", JStr "a\b")])] in
  Json.parse (Json.stringify (JObj record)) = Some (JObj record) /\
  getValueOfType (upsertValueInBucket "ab1201" (JObj record) utxoBucketTag ∅) "ab1201"
    = Ok (JObj record).
Proof.
  apply (record_round_trip _ ∅ "ab1201" utxoBucketTag). vm_compute. reflexivity.
Defined.

(** ** Defining a property of a record *)

Section define.
Context {V : Type}.
Implicit Types (o : list (string * V)) (k : string) (v : V).

Lemma obj_replace_keys k v o :
  Js.obj_get k o <> None -> map fst (Js.obj_replace k v o) = map fst o.
Proof.
  induction o as [|[k0 v0] o IH]; simpl; [reflexivity|].
  destruct (String.eqb_spec k0 k) as [->|Hne]; [reflexivity|].
  intros H. simpl. rewrite IH by assumption. reflexivity.
Qed.

Lemma obj_get_replace k v o k' :
  Js.obj_get k o <> None ->
  Js.obj_get k' (Js.obj_replace k v o) =
    if String.eqb k k' then Some v else Js.obj_get k' o.
Proof.
  induction o as [|[k0 v0] o IH]; simpl; [congruence|].
  destruct (String.eqb_spec k0 k) as [->|Hne]; simpl.
  - intros _. destruct (String.eqb k k'); reflexivity.
  - intros H. destruct (String.eqb_spec k0 k') as [->|Hne'].
    + destruct (String.eqb_spec k k'); [congruence | reflexivity].
    + apply IH, H.
Qed.

Lemma obj_get_insert k v o k' :
  Js.obj_get k o = None ->
  Js.obj_get k' (Js.obj_insert k v o) =
    if String.eqb k k' then Some v else Js.obj_get k' o.
Proof.
  induction o as [|[k0 v0] o IH]; simpl; [reflexivity|].
  destruct (String.eqb_spec k0 k) as [->|Hne]; [discriminate|]. intros H.
  destruct (Js.key_before k k0); simpl; [reflexivity|].
  destruct (String.eqb_spec k0 k') as [->|Hne'].
  - destruct (String.eqb_spec k k'); [congruence | reflexivity].
  - apply IH, H.
Qed.

Lemma obj_get_define k v o k' :
  Js.obj_get k' (Js.obj_define k v o) =
    if String.eqb k k' then Some v else Js.obj_get k' o.
Proof.
  unfold Js.obj_define. destruct (Js.obj_get k o) eqn:E.
  - apply obj_get_replace. congruence.
  - apply obj_get_insert, E.
Qed.

End define.

Lemma keys_ordered_snoc ks k :
  keys_ordered ks = true -> k ∉ ks -> is_index k = false ->
  keys_ordered (ks ++ [k]) = true.
Proof.
  intros Hord Hk Hidx. induction ks as [|k0 ks IH]; simpl; [reflexivity|].
  simpl in Hord. apply andb_prop in Hord as [Hall Hord].
  apply not_elem_of_cons in Hk as [Hne Hk].
  rewrite forallb_app, Hall, IH by assumption. simpl.
  rewrite key_before_not_index by assumption.
  destruct (String.eqb_spec k k0); [contradiction | reflexivity].
Qed.

Lemma well_formed_define k v (o : jsobj) :
  well_formed (JObj o) = true -> well_formed v = true -> is_index k = false ->
  well_formed (JObj (Js.obj_define k v o)) = true.
Proof.
  intros Hwf Hv Hidx. cbn [well_formed] in Hwf.
  apply andb_prop in Hwf as [Hord Hall].
  unfold Js.obj_define. destruct (Js.obj_get k o) eqn:E; cbn [well_formed].
  - rewrite obj_replace_keys, Hord by congruence. simpl.
    clear Hord E. induction o as [|[k0 v0] o IH]; simpl; [reflexivity|].
    simpl in Hall. apply andb_prop in Hall as [H0 Hall].
    destruct (String.eqb k0 k); simpl.
    + rewrite Hv, Hall. reflexivity.
    + rewrite H0, IH by assumption. reflexivity.
  - rewrite obj_insert_not_index by assumption.
    rewrite map_app, forallb_app, Hall. simpl. rewrite Hv.
    rewrite keys_ordered_snoc; [reflexivity | assumption | | assumption].
    apply obj_get_None, E.
Qed.

(** ** The key of a UTXO is no bucket tag *)

Lemma last_char_cons c s : exists c', last_char (String c s) = Some c'.
Proof.
  revert c. induction s as [|x s IH]; intros c; simpl; [eauto|]. apply IH.
Qed.

Lemma last_char_app a b :
  last_char (a ++ b) =
    match last_char b with
    | Some c => Some c
    | None => last_char a
    end.
Proof.
  induction a as [|x a IH].
  - simpl. destruct (last_char b); reflexivity.
  - destruct a as [|y a].
    + destruct b as [|z b]; [reflexivity|].
      destruct (last_char_cons z b) as [c' E].
      change (last_char (String z b) = match last_char (String z b) with
                                       | Some c => Some c
                                       | None => Some x
                                       end).
      rewrite E. reflexivity.
    + exact IH.
Qed.

Lemma last_char_hex d :
  last_char (HexadecimalString.NilEmpty.string_of_uint d) <> Some "t"%char.
Proof.
  induction d; simpl; try discriminate;
    destruct (HexadecimalString.NilEmpty.string_of_uint d);
    (discriminate || assumption).
Qed.

Lemma last_char_padStart2 s :
  last_char s <> Some "t"%char ->
  exists c, last_char (padStart2 s) = Some c /\ c <> "t"%char.
Proof.
  destruct s as [|a [|b s]]; intros H.
  - eexists. split; [reflexivity | discriminate].
  - exists a. split; [reflexivity | simpl in H; congruence].
  - destruct (last_char_cons a (String b s)) as [c E].
    exists c. split; [exact E | congruence].
Qed.

Lemma getUtxoKey_last txid vout :
  exists c, last_char (getUtxoKey txid vout) = Some c /\ c <> "t"%char.
Proof.
  unfold getUtxoKey. rewrite last_char_app.
  assert (H : last_char (toString16 vout) <> Some "t"%char).
  { destruct vout as [|p|p]; simpl; [discriminate| |].
    - apply last_char_hex.
    - unfold hex. pose proof (last_char_hex (N.to_hex_uint (N.pos p))) as H.
      destruct (HexadecimalString.NilEmpty.string_of_uint _);
        [discriminate | exact H]. }
  destruct (last_char_padStart2 _ H) as (c & -> & Hc). eauto.
Qed.

Lemma getUtxoKey_not_tag txid vout : getUtxoKey txid vout <> utxoBucketTag.
Proof.
  intros E. destruct (getUtxoKey_last txid vout) as (c & Hc & Hne).
  rewrite E in Hc. simpl in Hc. congruence.
Qed.

(** ** Claim on [unreserveUtxo] *)

Lemma getValueOfType_stored db key value :
  getItem db key = Some (Json.stringify value) -> well_formed value = true ->
  getValueOfType db key = Ok value.
Proof.
  intros H Hwf. unfold getValueOfType, getValue. rewrite H. cbn [rbind].
  rewrite parse_stringify by assumption. reflexivity.
Qed.

Lemma upsertInBucket_member key value tag db :
  key ∈ getBucketKeys db tag ->
  upsertInBucket key value tag db = setItem key value db.
Proof.
  intros [i Hi]%indexOf_elem. unfold upsertInBucket. rewrite Hi. reflexivity.
Qed.

(** C6: [unreserveUtxo] on a (txid, vout) whose key the store does not
    have throws NotFound and writes nothing. On a stored UTXO (the key is a
    member of the UTXO bucket and holds the text of the record) it writes
    under the same key a record whose [reserved] is false and whose other
    fields are those of the stored record; the membership list of the UTXO
    bucket and every other entry of the store stay as they were. *)
Theorem unreserveUtxo_frame (db : Storage) (txid : string) (vout : Z) :
  let key := getUtxoKey txid vout in
  (getItem db key = None ->
     unreserveUtxo txid vout db = Throw (RepositoryError NotFound) /\
     settle (unreserveUtxo txid vout db) db = db) /\
  (forall utxo : jsobj,
     getItem db key = Some (Json.stringify (JObj utxo)) ->
     well_formed (JObj utxo) = true ->
     key ∈ getBucketKeys db utxoBucketTag ->
     exists (db' : Storage) (utxo' : jsobj),
       unreserveUtxo txid vout db = Ok db' /\
       getBucketKeys db' utxoBucketTag = getBucketKeys db utxoBucketTag /\
       getItem db' key = Some (Json.stringify (JObj utxo')) /\
       getValueOfType db' key = Ok (JObj utxo') /\
       Js.obj_get "reserved" utxo' = Some (JBool false) /\
       (forall field, field <> "reserved" ->
          Js.obj_get field utxo' = Js.obj_get field utxo) /\
       (forall k, k <> key -> getItem db' k = getItem db k)).
Proof.
  intros key. split.
  - intros H. unfold unreserveUtxo. fold key.
    rewrite getValueOfType_absent by assumption. split; reflexivity.
  - intros utxo Hget Hwf Hin.
    set (utxo' := Js.obj_define "reserved" (JBool false) utxo).
    assert (Hwf' : well_formed (JObj utxo') = true)
      by (apply well_formed_define; [assumption | reflexivity | reflexivity]).
    exists (setItem key (Json.stringify (JObj utxo')) db), utxo'.
    assert (Hrun : unreserveUtxo txid vout db =
                   Ok (setItem key (Json.stringify (JObj utxo')) db)).
    { unfold unreserveUtxo. fold key.
      rewrite (getValueOfType_stored db key (JObj utxo)) by assumption.
      cbn [rbind Json.spread]. fold utxo'.
      unfold upsertValueInBucket. rewrite upsertInBucket_member by assumption.
      reflexivity. }
    split; [exact Hrun|]. split.
    { apply getBucketKeys_setItem_ne, getUtxoKey_not_tag. }
    split. { unfold getItem, setItem. apply lookup_insert_eq. }
    split.
    { apply getValueOfType_stored; [|assumption].
      unfold getItem, setItem. apply lookup_insert_eq. }
    split. { unfold utxo'. rewrite obj_get_define. reflexivity. }
    split.
    { intros field Hf. unfold utxo'. rewrite obj_get_define.
      destruct (String.eqb_spec "reserved" field); [congruence | reflexivity]. }
    intros k Hk. unfold getItem, setItem. apply lookup_insert_ne. congruence.
Qed.

Lemma unreserveUtxo_frame_witness :
  let utxo :=
    [("txid", JStr "ab12"); ("vout", JNum 1); ("amount", JNum 5000);
     ("reserved", JBool true); ("address", JStr "bc1q")] in
  let db : Storage :=
    upsertInBucket "ab1201" (Json.stringify (JObj utxo)) utxoBucketTag ∅ in
  exists (db' : Storage) (utxo' : jsobj),
    unreserveUtxo "ab12" 1 db = Ok db' /\
    getBucketKeys db' utxoBucketTag = getBucketKeys db utxoBucketTag /\
    getItem db' (getUtxoKey "ab12" 1) = Some (Json.stringify (JObj utxo')) /\
    getValueOfType db' (getUtxoKey "ab12" 1) = Ok (JObj utxo') /\
    Js.obj_get "reserved" utxo' = Some (JBool false) /\
    (forall field, field <> "reserved" ->
       Js.obj_get field utxo' = Js.obj_get field utxo) /\
    (forall k, k <> getUtxoKey "ab12" 1 -> getItem db' k = getItem db k).
Proof.
  intros utxo db.
  apply (proj2 (unreserveUtxo_frame db "ab12" 1) utxo).
  - vm_compute. reflexivity.
  - vm_compute. reflexivity.
  - vm_compute. apply list_elem_of_here.
Defined.

(** ** Claims on contracts *)

Section contract_claims.
Variable getId : jsobj -> string.
Variable Accepted : json.

(** C1: for a contract in the state Accepted whose temporaryContractId
    differs from its identifier, after [updateContract] reading the
    temporaryContractId throws NotFound and reading the identifier returns
    the contract; where the store had no record under the
    temporaryContractId the delete before the upsert changes nothing
    ([updateContract] has no throwing outcome). The store pairs the
    temporaryContractId as the data model says: it is a member of the
    contract bucket exactly when the store has an entry under it, and it
    is not the tag of the bucket. *)
Theorem updateContract_migrates (db : Storage) (contract : jsobj)
  (temporaryContractId : string) :
  isAccepted Accepted contract = true ->
  Js.obj_get "temporaryContractId" contract = Some (JStr temporaryContractId) ->
  temporaryContractId <> getId contract ->
  well_formed (JObj contract) = true ->
  temporaryContractId <> contractBucketTag ->
  (temporaryContractId ∈ getBucketKeys db contractBucketTag <->
   is_Some (getItem db temporaryContractId)) ->
  let db' := updateContract getId Accepted contract db in
  getContract db' temporaryContractId = Throw (RepositoryError NotFound) /\
  getContract db' (getId contract) = Ok (JObj contract) /\
  (getItem db temporaryContractId = None -> deleteTemporary contract db = db).
Proof.
  intros Hacc Htmp Hne Hwf Htag Hpair db'.
  assert (Hdel : getItem (deleteTemporary contract db) temporaryContractId = None).
  { unfold deleteTemporary. rewrite Htmp.
    destruct (decide (temporaryContractId ∈ getBucketKeys db contractBucketTag))
      as [Hin|Hout].
    - apply deleteInBucket_getItem_member, Hin.
    - rewrite deleteInBucket_absent by assumption.
      destruct (getItem db temporaryContractId) eqn:E; [|reflexivity].
      exfalso. apply Hout, Hpair. eauto. }
  split; [|split].
  - unfold getContract. apply getValueOfType_absent.
    unfold db', updateContract, upsertValueInBucket. rewrite Hacc.
    rewrite upsertInBucket_getItem_ne by assumption. exact Hdel.
  - unfold getContract, db', updateContract.
    apply getValueOfType_upsertValueInBucket, Hwf.
  - intros Hnone. unfold deleteTemporary. rewrite Htmp.
    apply deleteInBucket_absent. intros Hin%Hpair.
    rewrite Hnone in Hin. destruct Hin as [? [=]].
Qed.

End contract_claims.

Lemma updateContract_migrates_witness :
  let offered := [("state", JNum 1); ("temporaryContractId", JStr "tmp-1")] in
  let contract :=
    [("state", JNum 2); ("temporaryContractId", JStr "tmp-1");
     ("id", JStr "final-1")] in
  let db : Storage := createContract example_getId offered ∅ in
  let db' := updateContract example_getId (JNum 2) contract db in
  getContract db' "tmp-1" = Throw (RepositoryError NotFound) /\
  getContract db' (example_getId contract) = Ok (JObj contract) /\
  (getItem db "tmp-1" = None -> deleteTemporary contract db = db).
Proof.
  intros offered contract db.
  apply (updateContract_migrates example_getId (JNum 2) db contract "tmp-1").
  - reflexivity.
  - reflexivity.
  - discriminate.
  - vm_compute. reflexivity.
  - discriminate.
  - split.
    + intros _. eexists. vm_compute. reflexivity.
    + intros _. vm_compute. apply list_elem_of_here.
Defined.

(** ** Claim on [getContracts] *)

Lemma rmap_Ok {A B} (f : A -> result B) (d : B) l r :
  rmap f l = Ok r ->
  r = map (fun x => match f x with Ok v => v | Throw _ => d end) l.
Proof.
  revert r. induction l as [|x l IH]; simpl; intros r.
  - intros [= <-]. reflexivity.
  - destruct (f x) as [y|e]; simpl; [|discriminate].
    destruct (rmap f l) as [ys|e]; simpl; [|discriminate].
    intros [= <-]. rewrite <- (IH ys eq_refl). reflexivity.
Qed.

Lemma strict_equal_eq a b : Json.strict_equal a b = true -> a = b.
Proof.
  destruct a, b; simpl; try discriminate; intros H.
  - reflexivity.
  - apply Bool.eqb_prop in H. congruence.
  - apply Z.eqb_eq in H. congruence.
  - apply String.eqb_eq in H. congruence.
Qed.

Lemma strict_equal_refl a : primitive a = true -> Json.strict_equal a a = true.
Proof.
  destruct a; simpl; try discriminate; intros _.
  - apply Z.eqb_refl.
  - apply String.eqb_refl.
Qed.

Lemma includes_spec l x :
  Forall (fun s => primitive s = true) l ->
  includes l x = true <-> exists s, x = Some s /\ s ∈ l.
Proof.
  intros Hl. unfold includes. destruct x as [v|].
  - rewrite existsb_exists. split.
    + intros (s & Hs & E). apply strict_equal_eq in E. subst s.
      exists v. split; [reflexivity | apply list_elem_of_In, Hs].
    + intros (s & [= <-] & Hs). exists v. split; [apply list_elem_of_In, Hs|].
      apply strict_equal_refl. rewrite Forall_forall in Hl. apply Hl, Hs.
  - split; [discriminate | intros (s & [=] & _)].
Qed.

Lemma hasOneOfState_non_null l r :
  non_null r = true ->
  hasOneOfState (Some l) r = Ok (includes l (record_state r)).
Proof. destruct r; (discriminate || reflexivity). Qed.

Lemma rfilter_non_null l all :
  Forall (fun r => non_null r = true) all ->
  rfilter (hasOneOfState (Some l)) all =
    Ok (filter (fun r => includes l (record_state r) = true) all).
Proof.
  induction 1 as [|r all Hr Hall IH]; [reflexivity|].
  cbn [rfilter]. rewrite IH, hasOneOfState_non_null by assumption.
  cbn [rbind]. destruct (includes l (record_state r)) eqn:E.
  - rewrite filter_cons_True by exact E. reflexivity.
  - rewrite filter_cons_False by congruence. reflexivity.
Qed.

(** C7: where the records of the contract bucket load, [getContracts]
    without a query, or with a query that has no [states], returns all of
    them; with a set of states it returns exactly the records whose state
    is a member of the set (a record is kept when its state is any of the
    requested ones; no loaded record is [null]). The loaded records are
    those stored under the keys of the membership list. *)
Theorem getContracts_filters (db : Storage) (all : list json) :
  getAllValuesInBucketOfType db contractBucketTag = Ok all ->
  getContracts None db = Ok all /\
  getContracts (Some {| states := None |}) db = Ok all /\
  (forall l : list json,
     Forall (fun r => non_null r = true) all ->
     Forall (fun s => primitive s = true) l ->
     exists rs,
       getContracts (Some {| states := Some l |}) db = Ok rs /\
       rs = filter (fun r => includes l (record_state r) = true) all /\
       (forall r, r ∈ rs <->
                  r ∈ all /\ exists s, record_state r = Some s /\ s ∈ l)) /\
  (NoDup (getBucketKeys db contractBucketTag) ->
   "__proto__" ∉ getBucketKeys db contractBucketTag ->
   Permutation all
     (map (read_record db) (getBucketKeys db contractBucketTag))).
Proof.
  intros Hall. unfold getContracts. rewrite Hall. cbn [rbind states].
  split; [reflexivity|]. split; [|split].
  - clear Hall. induction all as [|r all IH]; [reflexivity|].
    cbn. rewrite IH. reflexivity.
  - intros l Hobj Hprim. eexists. split; [apply rfilter_non_null, Hobj|].
    split; [reflexivity|]. intros r. rewrite list_elem_of_filter.
    rewrite (includes_spec l (record_state r) Hprim). tauto.
  - intros Hnd Hproto.
    destruct (getAllKeyValuesInBucket_spec db contractBucketTag Hnd Hproto)
      as (Hperm & _ & _).
    unfold getAllValuesInBucketOfType, getAllValuesInBucket in Hall.
    rewrite (rmap_Ok parse_item JNull _ _ Hall).
    rewrite Hperm, !map_map. reflexivity.
Qed.

Lemma getContracts_filters_witness :
  let c1 := [("state", JNum 1); ("temporaryContractId", JStr "aa")] in
  let c2 := [("state", JNum 2); ("temporaryContractId", JStr "bb")] in
  let db : Storage :=
    createContract example_getId c2 (createContract example_getId c1 ∅) in
  let all := [JObj c1; JObj c2] in
  getContracts None db = Ok all /\
  getContracts (Some {| states := None |}) db = Ok all /\
  (forall l : list json,
     Forall (fun r => non_null r = true) all ->
     Forall (fun s => primitive s = true) l ->
     exists rs,
       getContracts (Some {| states := Some l |}) db = Ok rs /\
       rs = filter (fun r => includes l (record_state r) = true) all /\
       (forall r, r ∈ rs <->
                  r ∈ all /\ exists s, record_state r = Some s /\ s ∈ l)) /\
  (NoDup (getBucketKeys db contractBucketTag) ->
   "__proto__" ∉ getBucketKeys db contractBucketTag ->
   Permutation all
     (map (read_record db) (getBucketKeys db contractBucketTag))).
Proof.
  intros c1 c2 db all. apply (getContracts_filters db all).
  vm_compute. reflexivity.
Defined.

(** ** The pairing invariant *)

Lemma reserved_tagOf b : reserved (tagOf b) = true.
Proof. destruct b; reflexivity. Qed.

Lemma not_reserved_tagOf k b : reserved k = false -> k <> tagOf b.
Proof. intros H ->. rewrite reserved_tagOf in H. discriminate. Qed.

Lemma tagOf_inj b b' : tagOf b = tagOf b' -> b = b'.
Proof. destruct b, b'; (reflexivity || discriminate). Qed.

Lemma elem_of_delete_NoDup (l : list string) i x y :
  NoDup l -> l !! i = Some x -> y ∈ delete i l <-> y ∈ l /\ y <> x.
Proof.
  intros Hnd Hi. rewrite delete_take_drop.
  pose proof (take_drop_middle l i x Hi) as E.
  assert (Hl : y ∈ l <-> y ∈ take i l \/ y = x \/ y ∈ drop (S i) l).
  { rewrite <- E at 1. rewrite elem_of_app, elem_of_cons. reflexivity. }
  rewrite <- E in Hnd.
  apply NoDup_app in Hnd as (_ & Hdisj & [Hx _]%NoDup_cons).
  rewrite Hl, elem_of_app. split.
  - intros [H|H].
    + split; [auto|]. intros ->. apply (Hdisj x H). left.
    + split; [auto|]. intros ->. contradiction.
  - intros [[H|[->|H]] Hne]; [auto | contradiction | auto].
Qed.

Section pairing.
Variable owner : string -> Bucket.

Lemma paired_empty : paired owner ∅.
Proof.
  intros b. unfold getBucketKeys, getItem. rewrite lookup_empty.
  split; [constructor|]. split.
  - intros k Hk. apply elem_of_nil in Hk as [].
  - intros k [v Hv] _ _. rewrite lookup_empty in Hv. discriminate.
Qed.

Lemma paired_upsertInBucket b key value db :
  paired owner db -> valid_key owner b key ->
  paired owner (upsertInBucket key value (tagOf b) db).
Proof.
  intros Hinv (Hcf & Hres & Hown) b'.
  destruct (Hinv b') as (Hnd & Hmem & Hent).
  assert (Hget : forall k, reserved k = false ->
            getItem (upsertInBucket key value (tagOf b) db) k =
            if decide (k = key) then Some value else getItem db k).
  { intros k Hk. destruct (decide (k = key)) as [->|Hne].
    - apply upsertInBucket_getItem.
    - apply upsertInBucket_getItem_ne; [exact Hne | apply not_reserved_tagOf, Hk]. }
  assert (Hkeys : forall k, k ∈ getBucketKeys (upsertInBucket key value (tagOf b) db) (tagOf b')
            <-> k ∈ getBucketKeys db (tagOf b') \/ (b' = b /\ k = key)).
  { intros k. destruct (decide (b' = b)) as [->|Hb].
    - rewrite upsertInBucket_keys by (auto using not_reserved_tagOf).
      destruct (Js.indexOf key (getBucketKeys db (tagOf b))) as [i|] eqn:E.
      + apply indexOf_Some, list_elem_of_lookup_2 in E.
        split; [auto | intros [H|[_ ->]]; assumption].
      + rewrite elem_of_app, list_elem_of_singleton. tauto.
    - rewrite upsertInBucket_keys_other;
        [tauto | intros H%tagOf_inj; contradiction | apply not_reserved_tagOf, Hres]. }
  split; [|split].
  - destruct (decide (b' = b)) as [->|Hb].
    + rewrite upsertInBucket_keys by (auto using not_reserved_tagOf).
      destruct (Js.indexOf key (getBucketKeys db (tagOf b))) as [i|] eqn:E;
        [exact Hnd|].
      apply indexOf_None in E. apply NoDup_app. split; [exact Hnd|].
      split; [|apply NoDup_singleton].
      intros x Hx Hx'%list_elem_of_singleton. congruence.
    + rewrite upsertInBucket_keys_other;
        [exact Hnd | intros H%tagOf_inj; contradiction | apply not_reserved_tagOf, Hres].
  - intros k [Hk|[-> ->]]%Hkeys.
    + destruct (Hmem k Hk) as (Hs & Hr & Ho). rewrite Hget by assumption.
      split; [|auto]. destruct (decide (k = key)); [eauto | assumption].
    + rewrite Hget by assumption. rewrite decide_True by reflexivity. eauto.
  - intros k Hs Hr Ho. apply Hkeys. rewrite Hget in Hs by assumption.
    destruct (decide (k = key)) as [->|Hne].
    + right. split; congruence.
    + left. apply Hent; assumption.
Qed.

Lemma paired_deleteInBucket b key db :
  paired owner db -> paired owner (deleteInBucket key (tagOf b) db).
Proof.
  intros Hinv.
  destruct (decide (key ∈ getBucketKeys db (tagOf b))) as [Hin|Hout];
    [|rewrite deleteInBucket_absent by assumption; exact Hinv].
  destruct (Hinv b) as (Hndb & Hmemb & _).
  destruct (Hmemb key Hin) as (_ & Hres & Hown).
  destruct (indexOf_elem _ _ Hin) as [i Hi].
  pose proof (indexOf_Some _ _ _ Hi) as Hlook.
  assert (Hget : forall k, reserved k = false -> k <> key ->
            getItem (deleteInBucket key (tagOf b) db) k = getItem db k).
  { intros k Hk Hne. apply deleteInBucket_getItem_ne;
      [exact Hne | apply not_reserved_tagOf, Hk]. }
  assert (Hkeys : forall b' k,
            k ∈ getBucketKeys (deleteInBucket key (tagOf b) db) (tagOf b')
            <-> k ∈ getBucketKeys db (tagOf b') /\ k <> key).
  { intros b' k. destruct (decide (b' = b)) as [->|Hb].
    - rewrite deleteInBucket_keys by (apply not_reserved_tagOf, Hres).
      rewrite Hi. apply elem_of_delete_NoDup; assumption.
    - rewrite deleteInBucket_keys_other;
        [ | intros H%tagOf_inj; contradiction | apply not_reserved_tagOf, Hres].
      split; [|tauto]. intros Hk. split; [exact Hk|]. intros ->.
      destruct (Hinv b') as (_ & Hmem & _).
      destruct (Hmem key Hk) as (_ & _ & Ho). congruence. }
  intros b'. destruct (Hinv b') as (Hnd & Hmem & Hent).
  split; [|split].
  - destruct (decide (b' = b)) as [->|Hb].
    + rewrite deleteInBucket_keys by (apply not_reserved_tagOf, Hres).
      rewrite Hi. exact (sublist_NoDup _ _ Hnd (sublist_delete _ i)).
    + rewrite deleteInBucket_keys_other;
        [exact Hnd | intros H%tagOf_inj; contradiction | apply not_reserved_tagOf, Hres].
  - intros k [Hk Hne]%Hkeys. destruct (Hmem k Hk) as (Hs & Hr & Ho).
    rewrite Hget by assumption. auto.
  - intros k Hs Hr Ho. apply Hkeys.
    assert (Hne : k <> key).
    { intros ->. rewrite deleteInBucket_getItem_member in Hs by assumption.
      destruct Hs as [? [=]]. }
    rewrite Hget in Hs by assumption. split; [|exact Hne].
    apply Hent; assumption.
Qed.

Lemma paired_saveLocation location db :
  paired owner db -> paired owner (saveLocation location db).
Proof.
  intros Hinv b. destruct (Hinv b) as (Hnd & Hmem & Hent).
  assert (Hkeys : getBucketKeys (saveLocation location db) (tagOf b) =
                  getBucketKeys db (tagOf b)).
  { apply getBucketKeys_setItem_ne. destruct b; discriminate. }
  assert (Hget : forall k, reserved k = false ->
                 getItem (saveLocation location db) k = getItem db k).
  { intros k Hk. unfold saveLocation, getItem, setItem.
    apply lookup_insert_ne. intros <-. discriminate. }
  rewrite Hkeys. split; [exact Hnd|]. split.
  - intros k Hk. destruct (Hmem k Hk) as (Hs & Hr & Ho).
    rewrite Hget by assumption. auto.
  - intros k Hs Hr Ho. rewrite Hget in Hs by assumption. auto.
Qed.

Section steps.
Variable getId : jsobj -> string.
Variable Accepted : json.

Lemma paired_step db o :
  paired owner db -> op_ok owner getId o ->
  paired owner (step getId Accepted db o).
Proof.
  intros Hinv Hok. destruct o; cbn [step op_ok] in *.
  - apply paired_saveLocation, Hinv.
  - apply (paired_upsertInBucket AddressBucket); assumption.
  - apply (paired_deleteInBucket AddressBucket), Hinv.
  - apply (paired_upsertInBucket KeyPairBucket); assumption.
  - unfold upsertUtxo. destruct (utxoKeyOf utxo) as [key|]; [|exact Hinv].
    apply (paired_upsertInBucket UtxoBucket); auto.
  - unfold deleteUtxo. destruct (utxoKeyOf utxo) as [key|]; [|exact Hinv].
    apply (paired_deleteInBucket UtxoBucket), Hinv.
  - unfold unreserveUtxo.
    destruct (getValueOfType db (getUtxoKey txid vout)); [|exact Hinv].
    apply (paired_upsertInBucket UtxoBucket); assumption.
  - apply (paired_upsertInBucket ContractBucket); assumption.
  - unfold updateContract, upsertValueInBucket.
    apply (paired_upsertInBucket ContractBucket); [|assumption].
    destruct (isAccepted Accepted contract); [|exact Hinv].
    unfold deleteTemporary.
    destruct (Js.obj_get "temporaryContractId" contract) as [[]|]; try exact Hinv.
    apply (paired_deleteInBucket ContractBucket), Hinv.
  - apply (paired_deleteInBucket ContractBucket), Hinv.
Qed.

Lemma paired_run ops db :
  paired owner db -> Forall (op_ok owner getId) ops ->
  paired owner (run getId Accepted ops db).
Proof.
  revert db. induction ops as [|o ops IH]; intros db Hinv Hok; [exact Hinv|].
  inversion Hok; subst. apply IH; [apply paired_step|]; assumption.
Qed.

(** C2: after every sequence of calls that starts from the empty store,
    every key of a membership list has an entry in the store, and every
    entry under a key of a bucket (the bucket tags and the location key
    apart) is in the membership list of that bucket. The keys that the
    calls write are as the data model asks: free of the delimiter, none of
    the reserved keys, each used with one bucket only. *)
Theorem pairing_invariant (ops : list op) :
  Forall (op_ok owner getId) ops ->
  let db := run getId Accepted ops ∅ in
  forall b k,
    (k ∈ getBucketKeys db (tagOf b) -> is_Some (getItem db k)) /\
    (is_Some (getItem db k) -> reserved k = false -> owner k = b ->
     k ∈ getBucketKeys db (tagOf b)).
Proof.
  intros Hok db b k.
  destruct (paired_run ops ∅ paired_empty Hok b) as (_ & Hmem & Hent).
  split.
  - intros Hk. apply Hmem, Hk.
  - apply Hent.
Qed.

End steps.
End pairing.

Lemma pairing_invariant_witness :
  let ops :=
    [UpsertAddress "bc1q" "priv1"; UpsertKeyPair "02ab" "priv2";
     UpsertUtxo [("txid", JStr "tx9"); ("vout", JNum 1); ("reserved", JBool true)];
     UnreserveUtxo "tx9" 1;
     CreateContract [("state", JNum 1); ("temporaryContractId", JStr "tmp-1")];
     UpdateContract [("state", JNum 2); ("temporaryContractId", JStr "tmp-1");
                     ("id", JStr "final-1")];
     DeleteAddress "bc1q"; SaveLocation "here"] in
  let db := run example_getId (JNum 2) ops ∅ in
  ("final-1" ∈ getBucketKeys db (tagOf ContractBucket) ->
   is_Some (getItem db "final-1")) /\
  (is_Some (getItem db "final-1") -> reserved "final-1" = false ->
   example_owner "final-1" = ContractBucket ->
   "final-1" ∈ getBucketKeys db (tagOf ContractBucket)).
Proof.
  intros ops.
  apply (pairing_invariant example_owner example_getId (JNum 2) ops).
  unfold ops.
  assert (Hv : forall b k, comma_free k = true -> reserved k = false ->
                 example_owner k = b -> valid_key example_owner b k)
    by (intros; repeat split; assumption).
  repeat (apply List.Forall_cons; [cbn [op_ok] | ]); try exact I;
    try apply List.Forall_nil; try (apply Hv; reflexivity).
  intros key Hkey. vm_compute in Hkey. injection Hkey as <-.
  apply Hv; reflexivity.
Defined.

(** * Further properties of the class *)

(** ** The location *)

Lemma getLocation_upsertInBucket key value tag db :
  key <> locationKey -> tag <> locationKey ->
  getLocation (upsertInBucket key value tag db) = getLocation db.
Proof. intros Hk Ht. apply upsertInBucket_getItem_ne; congruence. Qed.

Lemma getLocation_deleteInBucket key tag db :
  (key ∈ getBucketKeys db tag -> key <> locationKey) -> tag <> locationKey ->
  getLocation (deleteInBucket key tag db) = getLocation db.
Proof.
  intros Hk Ht.
  destruct (decide (key ∈ getBucketKeys db tag)) as [Hin|Hout].
  - apply deleteInBucket_getItem_ne; [|congruence].
    intros E. apply (Hk Hin). congruence.
  - rewrite deleteInBucket_absent by assumption. reflexivity.
Qed.

Section location.
Variable owner : string -> Bucket.
Variable getId : jsobj -> string.
Variable Accepted : json.

Lemma getLocation_step db o :
  paired owner db -> op_ok owner getId o ->
  getLocation (step getId Accepted db o) =
    match o with
    | SaveLocation location => Some location
    | _ => getLocation db
    end.
Proof.
  intros Hinv Hok.
  assert (Hup : forall b key value d,
            valid_key owner b key ->
            getLocation (upsertInBucket key value (tagOf b) d) = getLocation d).
  { intros b key value d (_ & Hr & _). apply getLocation_upsertInBucket.
    - intros ->. discriminate.
    - destruct b; discriminate. }
  assert (Hdel : forall b key,
            getLocation (deleteInBucket key (tagOf b) db) = getLocation db).
  { intros b key. apply getLocation_deleteInBucket; [|destruct b; discriminate].
    intros Hin ->. destruct (Hinv b) as (_ & Hmem & _).
    destruct (Hmem _ Hin) as (_ & Hr & _). discriminate. }
  destruct o; cbn [step op_ok] in *.
  - unfold getLocation, saveLocation, getItem, setItem. apply lookup_insert_eq.
  - apply (Hup AddressBucket), Hok.
  - apply (Hdel AddressBucket).
  - apply (Hup KeyPairBucket), Hok.
  - unfold upsertUtxo. destruct (utxoKeyOf utxo) as [key|]; [|reflexivity].
    apply (Hup UtxoBucket). auto.
  - unfold deleteUtxo. destruct (utxoKeyOf utxo) as [key|]; [|reflexivity].
    apply (Hdel UtxoBucket).
  - unfold unreserveUtxo.
    destruct (getValueOfType db (getUtxoKey txid vout)); [|reflexivity].
    apply (Hup UtxoBucket), Hok.
  - apply (Hup ContractBucket), Hok.
  - unfold updateContract, upsertValueInBucket.
    rewrite (Hup ContractBucket) by exact Hok.
    destruct (isAccepted Accepted contract); [|reflexivity].
    unfold deleteTemporary.
    destruct (Js.obj_get "temporaryContractId" contract) as [[]|]; try reflexivity.
    apply (Hdel ContractBucket).
  - apply (Hdel ContractBucket).
Qed.

(** X1: [getLocation] returns the argument of the latest [saveLocation]. *)
Theorem location_is_latest_saved (ops : list op) :
  Forall (op_ok owner getId) ops ->
  getLocation (run getId Accepted ops ∅) = last_location ops.
Proof.
  intros Hok. unfold last_location, run.
  change (@None string) with (getLocation ∅).
  assert (Hinv : paired owner ∅) by apply paired_empty.
  revert Hinv. generalize (∅ : Storage) as db. 
  induction Hok as [|o ops Ho Hops IH]; intros db Hinv; [reflexivity|].
  cbn [fold_left]. rewrite <- (getLocation_step db o Hinv Ho).
  apply IH. apply paired_step; assumption.
Qed.

End location.

(** ** Writes to one bucket *)

Lemma delete_is_filter (l : list string) i x :
  NoDup l -> l !! i = Some x -> delete i l = filter (fun k => k <> x) l.
Proof.
  revert i. induction l as [|y l IH]; intros i Hnd Hi; [discriminate|].
  apply NoDup_cons in Hnd as [Hy Hnd]. destruct i as [|i]; simpl in *.
  - injection Hi as ->. rewrite filter_cons_False by (intros H; apply H; reflexivity).
    symmetry. apply filter_all. rewrite Forall_forall.
    intros k Hk ->. contradiction.
  - rewrite filter_cons_True.
    + f_equal. apply IH; assumption.
    + intros ->. apply Hy. eapply list_elem_of_lookup_2, Hi.
Qed.

Lemma deleteInBucket_keys_filter key tag db :
  key <> tag -> NoDup (getBucketKeys db tag) ->
  getBucketKeys (deleteInBucket key tag db) tag =
    filter (fun k => k <> key) (getBucketKeys db tag).
Proof.
  intros Hne Hnd. rewrite deleteInBucket_keys by assumption.
  destruct (Js.indexOf key (getBucketKeys db tag)) as [i|] eqn:E.
  - apply delete_is_filter; [assumption | apply indexOf_Some, E].
  - symmetry. apply filter_all. rewrite Forall_forall. intros k Hk ->.
    apply indexOf_None in E. contradiction.
Qed.

Lemma upsertInBucket_member_after key value tag db :
  comma_free key = true -> key <> tag ->
  key ∈ getBucketKeys (upsertInBucket key value tag db) tag.
Proof.
  intros Hcf Hne. rewrite upsertInBucket_keys by assumption.
  destruct (Js.indexOf key (getBucketKeys db tag)) as [i|] eqn:E.
  - apply indexOf_Some in E. eapply list_elem_of_lookup_2, E.
  - apply elem_of_app. right. apply list_elem_of_singleton. reflexivity.
Qed.

Lemma upsertInBucket_NoDup key value tag db :
  comma_free key = true -> key <> tag -> NoDup (getBucketKeys db tag) ->
  NoDup (getBucketKeys (upsertInBucket key value tag db) tag).
Proof.
  intros Hcf Hne Hnd. rewrite upsertInBucket_keys by assumption.
  destruct (Js.indexOf key (getBucketKeys db tag)) as [i|] eqn:E; [exact Hnd|].
  apply indexOf_None in E. apply NoDup_app. split; [exact Hnd|].
  split; [|apply NoDup_singleton].
  intros x Hx Hx'%list_elem_of_singleton. congruence.
Qed.

Lemma getAllKeysInBucket_perm (db : Storage) tag :
  NoDup (getBucketKeys db tag) -> "__proto__" ∉ getBucketKeys db tag ->
  Permutation (getAllKeysInBucket db tag) (getBucketKeys db tag).
Proof.
  intros Hnd Hp.
  destruct (getAllKeyValuesInBucket_spec db tag Hnd Hp) as (Hperm & _ & _).
  unfold getAllKeysInBucket, Js.for_in. rewrite Hperm, map_map. simpl.
  rewrite map_id. reflexivity.
Qed.

(** X2: an address that was upserted is read back and enumerated; after
    [deleteAddress] it is neither, and the other addresses are enumerated
    as before. *)
Theorem address_round_trip (db : Storage) (address privkey : string) :
  comma_free address = true ->
  address <> addressBucketTag ->
  address <> "__proto__" ->
  NoDup (getBucketKeys db addressBucketTag) ->
  "__proto__" ∉ getBucketKeys db addressBucketTag ->
  let db1 := upsertAddress address privkey db in
  let db2 := deleteAddress address db1 in
  getPrivKeyForAddress db1 address = Ok privkey /\
  address ∈ getAddresses db1 /\
  getPrivKeyForAddress db2 address = Throw (RepositoryError NotFound) /\
  (address ∉ getAddresses db2) /\
  (forall a, a <> address -> a ∈ getAddresses db2 <-> a ∈ getAddresses db).
Proof.
  intros Hcf Hne Hproto Hnd Hp db1 db2.
  assert (Hin1 : address ∈ getBucketKeys db1 addressBucketTag)
    by (apply upsertInBucket_member_after; assumption).
  assert (Hnd1 : NoDup (getBucketKeys db1 addressBucketTag))
    by (apply upsertInBucket_NoDup; assumption).
  assert (Hk1 : forall a, a ∈ getBucketKeys db1 addressBucketTag <->
                          a ∈ getBucketKeys db addressBucketTag \/ a = address).
  { intros a. unfold db1, upsertAddress. rewrite upsertInBucket_keys by assumption.
    destruct (Js.indexOf address (getBucketKeys db addressBucketTag)) as [i|] eqn:E.
    - apply indexOf_Some, list_elem_of_lookup_2 in E.
      split; [auto | intros [H| ->]; assumption].
    - rewrite elem_of_app, list_elem_of_singleton. reflexivity. }
  assert (Hp1 : "__proto__" ∉ getBucketKeys db1 addressBucketTag).
  { intros [H|H]%Hk1; [contradiction | congruence]. }
  assert (Hk2 : getBucketKeys db2 addressBucketTag =
                filter (fun k => k <> address) (getBucketKeys db1 addressBucketTag))
    by (apply deleteInBucket_keys_filter; assumption).
  assert (Hnd2 : NoDup (getBucketKeys db2 addressBucketTag))
    by (rewrite Hk2; apply NoDup_filter, Hnd1).
  assert (Hp2 : "__proto__" ∉ getBucketKeys db2 addressBucketTag).
  { rewrite Hk2. intros [_ H]%list_elem_of_filter. contradiction. }
  pose proof (getAllKeysInBucket_perm db _ Hnd Hp) as P0.
  pose proof (getAllKeysInBucket_perm db1 _ Hnd1 Hp1) as P1.
  pose proof (getAllKeysInBucket_perm db2 _ Hnd2 Hp2) as P2.
  unfold getAddresses. split.
  { unfold getPrivKeyForAddress, getValue, db1, upsertAddress.
    rewrite upsertInBucket_getItem. reflexivity. }
  split; [rewrite P1; exact Hin1|]. split.
  { apply getValue_absent, deleteInBucket_getItem_member, Hin1. }
  split.
  { rewrite P2, Hk2. intros [H _]%list_elem_of_filter. apply H. reflexivity. }
  intros a Ha. rewrite P2, P0, Hk2, list_elem_of_filter, Hk1. tauto.
Qed.

(** X3: [deleteInBucket] removes the key from the list and keeps the other
    members in their order; a second delete changes nothing. *)
Theorem delete_keeps_order (db : Storage) (tag key : string) :
  key <> tag ->
  NoDup (getBucketKeys db tag) ->
  let db' := deleteInBucket key tag db in
  getBucketKeys db' tag = filter (fun k => k <> key) (getBucketKeys db tag) /\
  deleteInBucket key tag db' = db'.
Proof.
  intros Hne Hnd db'.
  assert (Hk : getBucketKeys db' tag =
               filter (fun k => k <> key) (getBucketKeys db tag))
    by (apply deleteInBucket_keys_filter; assumption).
  split; [exact Hk|]. apply deleteInBucket_absent. rewrite Hk.
  intros [H _]%list_elem_of_filter. apply H. reflexivity.
Qed.

(** X4: a write to one bucket is local: [upsertInBucket] and
    [deleteInBucket] leave the list of every other bucket and every entry
    other than the key and the tag as they were. *)
Theorem bucket_writes_are_local (db : Storage) (tag key value : string) :
  (forall tag', tag' <> tag -> key <> tag' ->
     getBucketKeys (upsertInBucket key value tag db) tag' = getBucketKeys db tag' /\
     getBucketKeys (deleteInBucket key tag db) tag' = getBucketKeys db tag') /\
  (forall k, k <> key -> k <> tag ->
     getItem (upsertInBucket key value tag db) k = getItem db k /\
     getItem (deleteInBucket key tag db) k = getItem db k).
Proof.
  split.
  - intros tag' Ht Hk. split.
    + apply upsertInBucket_keys_other; assumption.
    + apply deleteInBucket_keys_other; assumption.
  - intros k Hk Ht. split.
    + apply upsertInBucket_getItem_ne; assumption.
    + apply deleteInBucket_getItem_ne; assumption.
Qed.

Lemma comma_key_not_member (db : Storage) tag key :
  comma_free key = false -> key ∉ getBucketKeys db tag.
Proof.
  intros Hc Hin. pose proof (getBucketKeys_comma_free db tag) as H.
  rewrite Forall_forall in H. rewrite (H key Hin) in Hc. discriminate.
Qed.

(** X5: a key that contains the delimiter is never a member of a list, not
    even after its own upsert: its entry is written, and no delete through
    the bucket removes it. *)
Theorem delimiter_key_is_never_listed (db : Storage) (tag key value : string) :
  comma_free key = false ->
  let db' := upsertInBucket key value tag db in
  (key ∉ getBucketKeys db' tag) /\
  getItem db' key = Some value /\
  deleteInBucket key tag db' = db'.
Proof.
  intros Hc db'.
  assert (H : key ∉ getBucketKeys db' tag) by (apply comma_key_not_member, Hc).
  split; [exact H|]. split; [apply upsertInBucket_getItem|].
  apply deleteInBucket_absent, H.
Qed.

(** X6: the buckets share the keys of the store: where one string is upserted
    as an address and as a public key, [deleteAddress] removes the entry of
    the key pair as well, and leaves the public key on its list. *)
Theorem shared_key_is_deleted_for_both (db : Storage) (k p1 p2 : string) :
  comma_free k = true ->
  reserved k = false ->
  let db' := deleteAddress k (upsertKeyPair k p2 (upsertAddress k p1 db)) in
  k ∈ getBucketKeys db' keyPairBucketTag /\
  getPrivKeyForPubkey db' k = Throw (RepositoryError NotFound).
Proof.
  intros Hcf Hres db'.
  assert (Hne : forall b, k <> tagOf b) by (intros b; apply not_reserved_tagOf, Hres).
  set (db1 := upsertAddress k p1 db). set (db2 := upsertKeyPair k p2 db1).
  assert (H1 : k ∈ getBucketKeys db2 addressBucketTag).
  { unfold db2, upsertKeyPair. rewrite upsertInBucket_keys_other;
      [ | discriminate | apply (Hne AddressBucket)].
    apply upsertInBucket_member_after; [assumption | apply (Hne AddressBucket)]. }
  assert (H2 : k ∈ getBucketKeys db2 keyPairBucketTag).
  { apply upsertInBucket_member_after; [assumption | apply (Hne KeyPairBucket)]. }
  split.
  - unfold db', deleteAddress. rewrite deleteInBucket_keys_other;
      [exact H2 | discriminate | apply (Hne KeyPairBucket)].
  - apply getValue_absent, deleteInBucket_getItem_member, H1.
Qed.

(** ** The key of a UTXO *)

Lemma hex_uint_digits d :
  all_chars hex_digit_char (HexadecimalString.NilEmpty.string_of_uint d) = true.
Proof. induction d; simpl; auto. Qed.

Lemma hex_nzhead_head d :
  match Hexadecimal.nzhead d with Hexadecimal.D0 _ => False | _ => True end.
Proof. induction d; simpl; auto. Qed.

Lemma to_hex_uint_canonical n :
  N.to_hex_uint n = Hexadecimal.D0 Hexadecimal.Nil \/
  match N.to_hex_uint n with
  | Hexadecimal.D0 _ | Hexadecimal.Nil => False
  | _ => True
  end.
Proof.
  assert (H : N.to_hex_uint n = Hexadecimal.unorm (N.to_hex_uint n)).
  { rewrite <- HexadecimalN.Unsigned.to_of, HexadecimalN.Unsigned.of_to.
    reflexivity. }
  rewrite H. unfold Hexadecimal.unorm.
  pose proof (hex_nzhead_head (N.to_hex_uint n)) as Hh.
  destruct (Hexadecimal.nzhead (N.to_hex_uint n)); auto.
Qed.

Lemma hex_inj n m : hex n = hex m -> n = m.
Proof.
  unfold hex. intros E. apply HexadecimalN.Unsigned.to_uint_inj.
  pose proof (HexadecimalString.NilEmpty.usu (N.to_hex_uint n)) as Hn.
  pose proof (HexadecimalString.NilEmpty.usu (N.to_hex_uint m)) as Hm.
  rewrite E in Hn. congruence.
Qed.

(** The numeral of a natural number: digits only, the first one not a
    zero unless the numeral is "0". *)
Lemma hex_shape n :
  all_chars hex_digit_char (hex n) = true /\
  exists c s, hex n = String c s /\
              (c = "0"%char -> s = EmptyString).
Proof.
  split; [apply hex_uint_digits|]. unfold hex.
  destruct (to_hex_uint_canonical n) as [E|E].
  - rewrite E. simpl. eauto.
  - destruct (N.to_hex_uint n); try contradiction; simpl;
      eexists _, _; (split; [reflexivity | discriminate]).
Qed.

Lemma toString16_shape n :
  exists c s, toString16 n = String c s /\
    all_chars (fun x => hex_digit_char x || Ascii.eqb x "-") (toString16 n) = true /\
    (c = "0"%char -> s = EmptyString) /\
    all_chars hex_digit_char s = true /\
    (s = EmptyString -> hex_digit_char c = true).
Proof.
  assert (Hw : forall s, all_chars hex_digit_char s = true ->
            all_chars (fun x => hex_digit_char x || Ascii.eqb x "-") s = true).
  { induction s as [|x s IH]; simpl; [reflexivity|].
    intros [-> H]%andb_prop. simpl. auto. }
  destruct n as [|p|p]; cbn [toString16].
  - exists "0"%char, EmptyString. repeat split; reflexivity.
  - destruct (hex_shape (N.pos p)) as (Hd & c & s & E & Hz). rewrite E in *.
    exists c, s. simpl in Hd. apply andb_prop in Hd as [Hc Hs].
    repeat split; auto. apply Hw. simpl. rewrite Hc, Hs. reflexivity.
  - destruct (hex_shape (N.pos p)) as (Hd & c & s & E & Hz).
    exists "-"%char, (hex (N.pos p)). repeat split; try discriminate; auto.
    + simpl. apply Hw, Hd.
    + intros Hs. rewrite Hs in E. discriminate.
Qed.

Lemma toString16_inj n m : toString16 n = toString16 m -> n = m.
Proof.
  assert (Hminus : forall p, exists c s, hex (N.pos p) = String c s /\ c <> "-"%char).
  { intros p. destruct (hex_shape (N.pos p)) as (Hd & c & s & E & _).
    exists c, s. split; [exact E|]. intros ->. rewrite E in Hd. discriminate. }
  assert (Hzero : forall p, hex (N.pos p) <> "0").
  { intros p E. change "0" with (hex 0) in E. apply hex_inj in E. discriminate. }
  destruct n as [|p|p], m as [|q|q]; cbn [toString16]; intros E;
    try reflexivity.
  - symmetry in E. apply Hzero in E as [].
  - discriminate.
  - apply Hzero in E as [].
  - apply hex_inj in E. congruence.
  - destruct (Hminus p) as (c & s & Ep & Hc). rewrite Ep in E. congruence.
  - discriminate.
  - destruct (Hminus q) as (c & s & Eq & Hc). rewrite Eq in E. congruence.
  - injection E as E. apply hex_inj in E. congruence.
Qed.

Lemma padStart2_toString16_inj n m :
  padStart2 (toString16 n) = padStart2 (toString16 m) -> n = m.
Proof.
  intros E. apply toString16_inj.
  destruct (toString16_shape n) as (c & s & En & _ & Hz & _).
  destruct (toString16_shape m) as (c' & s' & Em & _ & Hz' & _).
  rewrite En, Em in *.
  destruct s as [|x s], s' as [|x' s']; simpl in E.
  - congruence.
  - injection E as <- -> ->. discriminate (Hz' eq_refl).
  - injection E as -> <- <-. discriminate (Hz eq_refl).
  - exact E.
Qed.

Lemma append_inj_length (a a' b b' : string) :
  String.length a = String.length a' -> a ++ b = a' ++ b' -> a = a' /\ b = b'.
Proof.
  revert a'. induction a as [|x a IH]; intros [|x' a'] Hl E; simpl in *;
    try discriminate.
  - auto.
  - injection E as -> E. injection Hl as Hl.
    destruct (IH a' Hl E) as [-> ->]. auto.
Qed.

(** X7: transaction identifiers of one length and their output indices are
    told apart by the key. *)
Theorem getUtxoKey_injective (txid txid' : string) (vout vout' : Z) :
  String.length txid = String.length txid' ->
  getUtxoKey txid vout = getUtxoKey txid' vout' ->
  txid = txid' /\ vout = vout'.
Proof.
  intros Hl E. unfold getUtxoKey in E.
  destruct (append_inj_length _ _ _ _ Hl E) as [-> Ep].
  split; [reflexivity|]. apply padStart2_toString16_inj, Ep.
Qed.

(** X8: across transaction identifiers of different lengths the key is
    not injective: an output index of three hexadecimal digits gives the
    key of a longer identifier with a smaller index. *)
Theorem getUtxoKey_lengths_collide (txid : string) :
  getUtxoKey (txid ++ "1") 1 = getUtxoKey txid 257 /\
  (txid ++ "1", 1%Z) <> (txid, 257%Z).
Proof.
  unfold getUtxoKey. change (padStart2 (toString16 1)) with "01".
  change (padStart2 (toString16 257)) with "101".
  split; [|intros [= _ H]; discriminate].
  induction txid as [|c s IH]; simpl; [reflexivity|]. f_equal. exact IH.
Qed.

Lemma last_char_all p s c :
  all_chars p s = true -> last_char s = Some c -> p c = true.
Proof.
  induction s as [|x s IH]; simpl; [discriminate|].
  intros [Hx Hs]%andb_prop. destruct s as [|y s].
  - intros [= <-]. exact Hx.
  - apply IH, Hs.
Qed.

Lemma padded_shape n :
  exists c, last_char (padStart2 (toString16 n)) = Some c /\
            hex_digit_char c = true /\
            comma_free (padStart2 (toString16 n)) = true /\
            2 <= String.length (padStart2 (toString16 n)).
Proof.
  assert (Hcf : forall s,
            all_chars (fun x => hex_digit_char x || Ascii.eqb x "-") s = true ->
            comma_free s = true).
  { induction s as [|x s IH]; simpl; [reflexivity|].
    intros [Hx Hs]%andb_prop. rewrite (IH Hs), andb_true_r.
    unfold comma. destruct (Ascii.eqb_spec x ","); [subst x; discriminate | reflexivity]. }
  destruct (toString16_shape n) as (c & s & E & Hall & _ & Hs & Hc).
  rewrite E in *. destruct s as [|y s].
  - exists c. cbn [padStart2]. split; [reflexivity|]. split; [auto|].
    split; [|simpl; lia].
    pose proof (Hcf _ Hall) as Hcc.
    change (comma_free (String "0" (String c EmptyString)))
      with (negb (Ascii.eqb "0" comma) && comma_free (String c EmptyString)).
    rewrite Hcc. reflexivity.
  - destruct (last_char_cons y s) as [c' Hl]. exists c'.
    cbn [padStart2]. split; [exact Hl|]. split; [|split].
    + apply (last_char_all hex_digit_char (String y s)); assumption.
    + apply Hcf, Hall.
    + simpl. lia.
Qed.

Lemma comma_free_app a b :
  comma_free (a ++ b) = comma_free a && comma_free b.
Proof.
  induction a as [|x a IH]; simpl; [reflexivity|].
  rewrite IH, andb_assoc. reflexivity.
Qed.

Lemma reserved_last k :
  reserved k = true ->
  last_char k = Some "t"%char \/ last_char k = Some "y"%char.
Proof.
  unfold reserved. rewrite !orb_true_iff, !String.eqb_eq.
  intros [[[[->| ->]| ->]| ->]| ->]; simpl; auto.
Qed.

Lemma getUtxoKey_comma_free (txid : string) (vout : Z) :
  comma_free (getUtxoKey txid vout) = comma_free txid.
Proof.
  destruct (padded_shape vout) as (c & _ & _ & Hcf & _).
  unfold getUtxoKey. rewrite comma_free_app, Hcf. apply andb_true_r.
Qed.

(** X9: the key of a UTXO ends with a hexadecimal digit: it is never a
    bucket tag, the location key or ["__proto__"]; it is two code units
    longer than the transaction identifier at least, and has the delimiter
    only where the transaction identifier has it. *)
Theorem getUtxoKey_shape (txid : string) (vout : Z) :
  let key := getUtxoKey txid vout in
  reserved key = false /\
  key <> "__proto__" /\
  comma_free key = comma_free txid /\
  String.length txid + 2 <= String.length key.
Proof.
  intros key. destruct (padded_shape vout) as (c & Hl & Hc & Hcf & Hlen).
  assert (Hlast : last_char key = Some c).
  { unfold key, getUtxoKey. rewrite last_char_app, Hl. reflexivity. }
  split; [|split; [|split]].
  - destruct (reserved key) eqn:E; [|reflexivity].
    apply reserved_last in E as [E|E]; rewrite Hlast in E;
      injection E as ->; discriminate.
  - intros E. rewrite E in Hlast. simpl in Hlast. injection Hlast as <-.
    discriminate.
  - apply getUtxoKey_comma_free.
  - unfold key, getUtxoKey. rewrite length_append. lia.
Qed.

(** ** UTXOs *)

Lemma utxoKeyOf_Some utxo key :
  utxoKeyOf utxo = Some key ->
  exists txid vout,
    Js.obj_get "txid" utxo = Some (JStr txid) /\
    Js.obj_get "vout" utxo = Some (JNum vout) /\
    key = getUtxoKey txid vout.
Proof.
  unfold utxoKeyOf.
  destruct (Js.obj_get "txid" utxo) as [[]|]; try discriminate.
  destruct (Js.obj_get "vout" utxo) as [[]|]; try discriminate.
  intros [= <-]. eauto.
Qed.

Lemma unreserveUtxo_stored db txid vout utxo :
  getItem db (getUtxoKey txid vout) = Some (Json.stringify (JObj utxo)) ->
  well_formed (JObj utxo) = true ->
  getUtxoKey txid vout ∈ getBucketKeys db utxoBucketTag ->
  unreserveUtxo txid vout db =
    Ok (setItem (getUtxoKey txid vout)
          (Json.stringify (JObj (Js.obj_define "reserved" (JBool false) utxo)))
          db).
Proof.
  intros Hget Hwf Hin. unfold unreserveUtxo.
  rewrite (getValueOfType_stored db _ (JObj utxo)) by assumption.
  cbn [rbind Json.spread]. unfold upsertValueInBucket.
  rewrite upsertInBucket_member by assumption. reflexivity.
Qed.

Lemma obj_replace_same {V} k (v : V) (o : list (string * V)) :
  Js.obj_get k o = Some v -> Js.obj_replace k v o = o.
Proof.
  induction o as [|[k0 v0] o IH]; simpl; [reflexivity|].
  destruct (String.eqb_spec k0 k) as [->|Hne].
  - intros [= ->]. reflexivity.
  - intros H. rewrite IH by assumption. reflexivity.
Qed.

Lemma obj_define_idempotent {V} k (v : V) (o : list (string * V)) :
  Js.obj_define k v (Js.obj_define k v o) = Js.obj_define k v o.
Proof.
  assert (H : Js.obj_get k (Js.obj_define k v o) = Some v).
  { rewrite obj_get_define, String.eqb_refl. reflexivity. }
  unfold Js.obj_define at 1. rewrite H. apply obj_replace_same, H.
Qed.

(** X10: [unreserveUtxo] is idempotent on a stored UTXO: a second call
    succeeds and leaves the store as the first call made it. *)
Theorem unreserveUtxo_idempotent (db : Storage) (txid : string) (vout : Z)
  (utxo : jsobj) :
  getItem db (getUtxoKey txid vout) = Some (Json.stringify (JObj utxo)) ->
  well_formed (JObj utxo) = true ->
  getUtxoKey txid vout ∈ getBucketKeys db utxoBucketTag ->
  exists db1 : Storage,
    unreserveUtxo txid vout db = Ok db1 /\
    unreserveUtxo txid vout db1 = Ok db1.
Proof.
  intros Hget Hwf Hin. set (key := getUtxoKey txid vout) in *.
  set (utxo' := Js.obj_define "reserved" (JBool false) utxo).
  exists (setItem key (Json.stringify (JObj utxo')) db).
  split; [apply unreserveUtxo_stored; assumption|].
  rewrite (unreserveUtxo_stored _ txid vout utxo').
  - fold key. unfold utxo'. rewrite obj_define_idempotent.
    unfold setItem. rewrite insert_insert_eq. reflexivity.
  - fold key. unfold getItem, setItem. apply lookup_insert_eq.
  - apply well_formed_define; [assumption | reflexivity | reflexivity].
  - fold key. rewrite getBucketKeys_setItem_ne; [exact Hin|].
    apply getUtxoKey_not_tag.
Qed.

(** X11: a UTXO that [upsertUtxo] stored is read back as it was and is a
    member of the bucket; [deleteUtxo] finds it by the txid and the vout of
    its argument alone and removes the entry and the membership. *)
Theorem utxo_round_trip (db : Storage) (utxo : jsobj) (key : string) :
  utxoKeyOf utxo = Some key ->
  well_formed (JObj utxo) = true ->
  comma_free key = true ->
  NoDup (getBucketKeys db utxoBucketTag) ->
  exists db1 : Storage,
    upsertUtxo utxo db = Ok db1 /\
    getValueOfType db1 key = Ok (JObj utxo) /\
    key ∈ getBucketKeys db1 utxoBucketTag /\
    (forall utxo' : jsobj, utxoKeyOf utxo' = Some key ->
       exists db2 : Storage,
         deleteUtxo utxo' db1 = Ok db2 /\
         getValueOfType db2 key = Throw (RepositoryError NotFound) /\
         (key ∉ getBucketKeys db2 utxoBucketTag)).
Proof.
  intros Hkey Hwf Hcf Hnd.
  destruct (utxoKeyOf_Some _ _ Hkey) as (txid & vout & _ & _ & Ek).
  assert (Hne : key <> utxoBucketTag) by (rewrite Ek; apply getUtxoKey_not_tag).
  unfold upsertUtxo. rewrite Hkey. eexists. split; [reflexivity|].
  set (db1 := upsertInBucket key (Json.stringify (JObj utxo)) utxoBucketTag db).
  assert (Hin : key ∈ getBucketKeys db1 utxoBucketTag)
    by (apply upsertInBucket_member_after; assumption).
  split.
  { apply getValueOfType_stored; [apply upsertInBucket_getItem | exact Hwf]. }
  split; [exact Hin|].
  intros utxo' Hkey'. unfold deleteUtxo. rewrite Hkey'.
  eexists. split; [reflexivity|]. split.
  - apply getValueOfType_absent, deleteInBucket_getItem_member, Hin.
  - rewrite deleteInBucket_keys_filter;
      [ | exact Hne | apply upsertInBucket_NoDup; assumption].
    intros [H _]%list_elem_of_filter. apply H. reflexivity.
Qed.

(** X12: after [upsertUtxo], [unreserveUtxo] on the txid and vout of the
    UTXO succeeds; the record then read has [reserved] false and the other
    fields of the UTXO, and the membership list is the one after the
    upsert. *)
Theorem unreserve_after_upsert (db : Storage) (utxo : jsobj)
  (txid : string) (vout : Z) :
  Js.obj_get "txid" utxo = Some (JStr txid) ->
  Js.obj_get "vout" utxo = Some (JNum vout) ->
  well_formed (JObj utxo) = true ->
  comma_free txid = true ->
  exists (db1 db2 : Storage) (utxo' : jsobj),
    upsertUtxo utxo db = Ok db1 /\
    unreserveUtxo txid vout db1 = Ok db2 /\
    getValueOfType db2 (getUtxoKey txid vout) = Ok (JObj utxo') /\
    Js.obj_get "reserved" utxo' = Some (JBool false) /\
    (forall field, field <> "reserved" ->
       Js.obj_get field utxo' = Js.obj_get field utxo) /\
    getBucketKeys db2 utxoBucketTag = getBucketKeys db1 utxoBucketTag.
Proof.
  intros Ht Hv Hwf Hcf. set (key := getUtxoKey txid vout).
  assert (Hkey : utxoKeyOf utxo = Some key)
    by (unfold utxoKeyOf; rewrite Ht, Hv; reflexivity).
  assert (Hne : key <> utxoBucketTag) by apply getUtxoKey_not_tag.
  assert (Hcfk : comma_free key = true).
  { unfold key. rewrite getUtxoKey_comma_free. exact Hcf. }
  set (db1 := upsertInBucket key (Json.stringify (JObj utxo)) utxoBucketTag db).
  set (utxo' := Js.obj_define "reserved" (JBool false) utxo).
  exists db1, (setItem key (Json.stringify (JObj utxo')) db1), utxo'.
  split; [unfold upsertUtxo; rewrite Hkey; reflexivity|].
  split.
  { apply unreserveUtxo_stored;
      [apply upsertInBucket_getItem | exact Hwf
      | apply upsertInBucket_member_after; assumption]. }
  split.
  { apply getValueOfType_stored.
    - unfold getItem, setItem. apply lookup_insert_eq.
    - apply well_formed_define; [assumption | reflexivity | reflexivity]. }
  split; [unfold utxo'; rewrite obj_get_define; reflexivity|].
  split.
  { intros field Hf. unfold utxo'. rewrite obj_get_define.
    destruct (String.eqb_spec "reserved" field); [congruence | reflexivity]. }
  apply getBucketKeys_setItem_ne, Hne.
Qed.

(** ** Contracts *)

Section contracts_more.
Variable getId : jsobj -> string.
Variable Accepted : json.

Lemma deleteTemporary_keys contract db :
  NoDup (getBucketKeys db contractBucketTag) ->
  contractBucketTag ∉ getBucketKeys db contractBucketTag ->
  getBucketKeys (deleteTemporary contract db) contractBucketTag =
    match Js.obj_get "temporaryContractId" contract with
    | Some (JStr temporaryContractId) =>
        filter (fun k => k <> temporaryContractId)
               (getBucketKeys db contractBucketTag)
    | _ => getBucketKeys db contractBucketTag
    end.
Proof.
  intros Hnd Htag. unfold deleteTemporary.
  destruct (Js.obj_get "temporaryContractId" contract) as [[| | |t| |]|];
    try reflexivity.
  destruct (decide (t = contractBucketTag)) as [->|Hne].
  - rewrite deleteInBucket_absent by assumption.
    symmetry. apply filter_all. rewrite Forall_forall. intros k Hk ->.
    contradiction.
  - apply deleteInBucket_keys_filter; assumption.
Qed.

(** X13: the membership list after [updateContract]. A contract that is not
    Accepted keeps its place on the list, or is appended when it is new; for
    an Accepted contract the temporaryContractId is taken off the list
    before, so a contract whose identifier is its temporaryContractId
    moves to the end. *)
Theorem updateContract_membership (db : Storage) (contract : jsobj) :
  comma_free (getId contract) = true ->
  getId contract <> contractBucketTag ->
  NoDup (getBucketKeys db contractBucketTag) ->
  contractBucketTag ∉ getBucketKeys db contractBucketTag ->
  let keys := getBucketKeys db contractBucketTag in
  let kept :=
    match Js.obj_get "temporaryContractId" contract with
    | Some (JStr temporaryContractId) =>
        if isAccepted Accepted contract
        then filter (fun k => k <> temporaryContractId) keys
        else keys
    | _ => keys
    end in
  getBucketKeys (updateContract getId Accepted contract db) contractBucketTag =
    if decide (getId contract ∈ kept) then kept else (kept ++ [getId contract])%list.
Proof.
  intros Hcf Hne Hnd Htag keys kept.
  unfold updateContract, upsertValueInBucket.
  rewrite upsertInBucket_keys by assumption.
  assert (Hkept : getBucketKeys
            (if isAccepted Accepted contract then deleteTemporary contract db else db)
            contractBucketTag = kept).
  { unfold kept. destruct (isAccepted Accepted contract).
    - rewrite deleteTemporary_keys by assumption.
      destruct (Js.obj_get "temporaryContractId" contract) as [[]|]; reflexivity.
    - destruct (Js.obj_get "temporaryContractId" contract) as [[]|]; reflexivity. }
  rewrite Hkept.
  destruct (Js.indexOf (getId contract) kept) as [i|] eqn:E.
  - apply indexOf_Some, list_elem_of_lookup_2 in E.
    rewrite decide_True by assumption. reflexivity.
  - apply indexOf_None in E. rewrite decide_False by assumption. reflexivity.
Qed.

(** X14: a contract that [createContract] stored is read back by
    [getContract] and found by [hasContract]; after [deleteContract] on its
    identifier [getContract] throws NotFound and [hasContract] answers
    false. *)
Theorem contract_round_trip (db : Storage) (contract : jsobj) :
  well_formed (JObj contract) = true ->
  comma_free (getId contract) = true ->
  getId contract <> contractBucketTag ->
  let db1 := createContract getId contract db in
  let db2 := deleteContract (getId contract) db1 in
  getContract db1 (getId contract) = Ok (JObj contract) /\
  hasContract db1 (getId contract) = true /\
  getContract db2 (getId contract) = Throw (RepositoryError NotFound) /\
  hasContract db2 (getId contract) = false.
Proof.
  intros Hwf Hcf Hne db1 db2.
  assert (Hin : getId contract ∈ getBucketKeys db1 contractBucketTag)
    by (apply upsertInBucket_member_after; assumption).
  assert (Hgone : getItem db2 (getId contract) = None)
    by (apply deleteInBucket_getItem_member, Hin).
  split; [apply getValueOfType_upsertValueInBucket, Hwf|]. split.
  - unfold hasContract, db1, createContract, upsertValueInBucket.
    rewrite upsertInBucket_getItem. reflexivity.
  - split; [apply getValueOfType_absent, Hgone|].
    unfold hasContract. rewrite Hgone. reflexivity.
Qed.

End contracts_more.

Lemma rfilter_null l all :
  JNull ∈ all -> rfilter (hasOneOfState (Some l)) all = Throw TypeError.
Proof.
  induction all as [|r all IH]; intros Hin.
  - apply elem_of_nil in Hin as [].
  - cbn [rfilter]. destruct r as [ | b | n | s | a | o];
      [reflexivity | | | | | ];
      (apply elem_of_cons in Hin as [Hin|Hin]; [congruence|]);
      rewrite (IH Hin); cbn [hasOneOfState state_of rbind]; reflexivity.
Qed.

(** X15: the state filter at its edges. With an empty set of states
    [getContracts] returns no record. A member of the contract list that
    has no entry in the store is loaded as [null]: the call without a
    filter returns it, and every call with a set of states throws a
    TypeError. *)
Theorem getContracts_filter_edges (db : Storage) (all : list json) :
  getAllValuesInBucketOfType db contractBucketTag = Ok all ->
  (Forall (fun r => non_null r = true) all ->
   getContracts (Some {| states := Some [] |}) db = Ok []) /\
  (forall key,
     NoDup (getBucketKeys db contractBucketTag) ->
     "__proto__" ∉ getBucketKeys db contractBucketTag ->
     key ∈ getBucketKeys db contractBucketTag ->
     getItem db key = None ->
     JNull ∈ all /\
     getContracts None db = Ok all /\
     forall l, getContracts (Some {| states := Some l |}) db = Throw TypeError).
Proof.
  intros Hall. split.
  - intros Hnn. unfold getContracts. rewrite Hall. cbn [rbind states].
    rewrite rfilter_non_null by assumption. f_equal.
    clear. induction all as [|r all IH]; [reflexivity|].
    rewrite filter_cons_False; [exact IH|].
    unfold includes. destruct (record_state r); discriminate.
  - intros key Hnd Hproto Hin Hnone.
    assert (Hnull : JNull ∈ all).
    { destruct (getAllKeyValuesInBucket_spec db contractBucketTag Hnd Hproto)
        as (Hperm & _ & _).
      unfold getAllValuesInBucketOfType, getAllValuesInBucket in Hall.
      rewrite (rmap_Ok parse_item JNull _ _ Hall).
      rewrite Hperm, !map_map. apply list_elem_of_In, in_map_iff.
      exists key. split; [|apply list_elem_of_In, Hin].
      cbn. rewrite Hnone. reflexivity. }
    split; [exact Hnull|]. unfold getContracts. rewrite Hall. cbn [rbind states].
    split; [reflexivity|]. intros l. apply rfilter_null, Hnull.
Qed.

(** ** Enumerations and the key ["__proto__"] *)

Lemma fill_skips_proto {V} (f : string -> option V) ks (d : Js.dict V) :
  Js.has_proto d = true ->
  (forall k, k ∈ ks -> is_Some (f k)) ->
  fold_left (fun ret key => Js.assign key (f key) ret) ks d =
  Js.Dict true
    (fold_left (fun p key => Js.obj_define key (f key) p)
               (filter (fun k => k <> "__proto__") ks) (Js.props d)).
Proof.
  revert d. induction ks as [|k ks IH]; intros d Hd Hf.
  - destruct d as [h p]. simpl in *. subst h. reflexivity.
  - cbn [fold_left]. destruct (Hf k) as [v Hv]; [left|].
    assert (Hf' : forall k', k' ∈ ks -> is_Some (f k'))
      by (intros k' Hk'; apply Hf; right; exact Hk').
    destruct (String.eqb_spec k "__proto__") as [->|Hne].
    + assert (Hstep : Js.assign "__proto__" (f "__proto__") d = d).
      { unfold Js.assign. rewrite Hd, Hv. reflexivity. }
      rewrite Hstep. rewrite filter_cons_False by (intros H; apply H; reflexivity).
      apply IH; assumption.
    + assert (Hstep : Js.assign k (f k) d =
                      Js.Dict true (Js.obj_define k (f k) (Js.props d))).
      { unfold Js.assign. rewrite Hd.
        destruct (String.eqb_spec k "__proto__"); [contradiction | reflexivity]. }
      rewrite Hstep. rewrite filter_cons_True by assumption. cbn [fold_left].
      rewrite IH by (reflexivity || assumption). reflexivity.
Qed.

(** X16: a member ["__proto__"] of a list is left out of the enumerations of
    keys and of values: they return every other member, once each. *)
Theorem enumeration_skips_proto (db : Storage) (tag : string) :
  NoDup (getBucketKeys db tag) ->
  (forall k, k ∈ getBucketKeys db tag -> is_Some (getItem db k)) ->
  let others := filter (fun k => k <> "__proto__") (getBucketKeys db tag) in
  Permutation (getAllKeysInBucket db tag) others /\
  Permutation (getAllValuesInBucket db tag) (map (getItem db) others) /\
  ("__proto__" ∉ getAllKeysInBucket db tag).
Proof.
  intros Hnd Hsome others.
  assert (Hprops : Permutation (Js.props (getAllKeyValuesInBucket db tag))
                     (map (fun k => (k, getItem db k)) others)).
  { unfold getAllKeyValuesInBucket.
    rewrite (fill_skips_proto (getItem db)) by (reflexivity || assumption).
    cbn [Js.props Js.empty_dict].
    destruct (fill_spec (getItem db) others []) as (H & _ & _).
    - apply NoDup_filter, Hnd.
    - intros k _. apply not_elem_of_nil.
    - exact H. }
  assert (Hkeys : Permutation (getAllKeysInBucket db tag) others).
  { unfold getAllKeysInBucket, Js.for_in. rewrite Hprops, map_map. simpl.
    rewrite map_id. reflexivity. }
  split; [exact Hkeys|]. split.
  - unfold getAllValuesInBucket. rewrite Hprops, map_map. reflexivity.
  - rewrite Hkeys. unfold others. intros [H _]%list_elem_of_filter.
    apply H. reflexivity.
Qed.

(** ** Loading a bucket *)

Lemma rmap_total {A B} (f : A -> result B) (g : A -> B) l :
  (forall x, x ∈ l -> f x = Ok (g x)) -> rmap f l = Ok (map g l).
Proof.
  induction l as [|x l IH]; intros H; [reflexivity|].
  cbn [rmap map]. rewrite (H x) by left. cbn [rbind].
  rewrite IH by (intros y Hy; apply H; right; exact Hy). reflexivity.
Qed.

(** X17: a bucket whose members hold the texts of records loads: the load
    succeeds and returns the stored records, each once. So do [getUtxos]
    and [getContracts] without a query. *)
Theorem bucket_load_returns_stored (db : Storage) (tag : string)
  (record : string -> json) :
  NoDup (getBucketKeys db tag) ->
  "__proto__" ∉ getBucketKeys db tag ->
  (forall k, k ∈ getBucketKeys db tag ->
     getItem db k = Some (Json.stringify (record k)) /\
     well_formed (record k) = true) ->
  exists all,
    getAllValuesInBucketOfType db tag = Ok all /\
    Permutation all (map record (getBucketKeys db tag)) /\
    (tag = utxoBucketTag -> getUtxos db = Ok all) /\
    (tag = contractBucketTag -> getContracts None db = Ok all).
Proof.
  intros Hnd Hproto Hrec.
  destruct (getAllKeyValuesInBucket_spec db tag Hnd Hproto) as (Hperm & _ & _).
  assert (Hvals : Permutation (getAllValuesInBucket db tag)
                    (map (getItem db) (getBucketKeys db tag))).
  { unfold getAllValuesInBucket. rewrite Hperm, map_map. reflexivity. }
  assert (Hok : forall x, x ∈ getAllValuesInBucket db tag ->
            parse_item x = Ok (match parse_item x with Ok v => v | Throw _ => JNull end)).
  { intros x Hx. rewrite Hvals in Hx.
    apply list_elem_of_In, in_map_iff in Hx as (k & <- & Hk).
    destruct (Hrec k) as [-> Hwf]; [apply list_elem_of_In, Hk|].
    cbn [parse_item]. rewrite parse_stringify by assumption. reflexivity. }
  assert (Hload : getAllValuesInBucketOfType db tag =
            Ok (map (fun x => match parse_item x with Ok v => v | Throw _ => JNull end)
                    (getAllValuesInBucket db tag)))
    by apply (rmap_total _ _ _ Hok).
  eexists. split; [exact Hload|]. split; [|split].
  - rewrite Hvals, map_map. apply Permutation_refl'. apply map_ext_in.
    intros k Hk. destruct (Hrec k) as [-> Hwf]; [apply list_elem_of_In, Hk|].
    cbn [parse_item]. rewrite parse_stringify by assumption. reflexivity.
  - intros ->. exact Hload.
  - intros ->. unfold getContracts. rewrite Hload. reflexivity.
Qed.

(** ** The text of a membership list *)

Lemma join_split s : Js.join comma (Js.split comma s) = s.
Proof.
  induction s as [|c s IH]; [reflexivity|]. cbn [Js.split].
  destruct (Ascii.eqb_spec c comma) as [->|Hne].
  - pose proof (split_not_nil comma s) as Hn.
    destruct (Js.split comma s) as [|w ws] eqn:E; [contradiction|].
    rewrite join_cons2, IH. reflexivity.
  - pose proof (split_not_nil comma s) as Hn.
    destruct (Js.split comma s) as [|w ws] eqn:E; [contradiction|].
    rewrite <- IH. destruct ws; reflexivity.
Qed.

(** X18: the text under a bucket tag and the list read from it determine
    each other: joining the list gives the text back, and a list that was
    written (not empty, its keys free of the delimiter) is read back as it
    was. *)
Theorem membership_text_round_trip (db : Storage) (tag : string) :
  (forall text, getItem db tag = Some text ->
     Js.join comma (getBucketKeys db tag) = text) /\
  (forall keyList, keyList <> [] ->
     Forall (fun k => comma_free k = true) keyList ->
     getBucketKeys (setItem tag (Js.join comma keyList) db) tag = keyList).
Proof.
  split.
  - intros text H. unfold getBucketKeys. rewrite H. apply join_split.
  - intros keyList Hne Hcf. apply getBucketKeys_setItem_join; assumption.
Qed.

(** X19: the reads of a private key look at the entry under the key only,
    not at the bucket: both answer with any entry of the store, so with
    a private key written through the other bucket, and with the text of
    the membership list for the tag of a bucket that has members. *)
Theorem getPrivKey_reads_any_entry (db : Storage) :
  (forall key value,
     getPrivKeyForAddress db key = Ok value <-> getItem db key = Some value) /\
  (forall key, getPrivKeyForPubkey db key = getPrivKeyForAddress db key) /\
  (forall publicKey privkey,
     getPrivKeyForAddress (upsertKeyPair publicKey privkey db) publicKey
       = Ok privkey) /\
  (forall address privkey,
     getPrivKeyForPubkey (upsertAddress address privkey db) address
       = Ok privkey) /\
  (forall tag, getBucketKeys db tag <> [] ->
     getPrivKeyForAddress db tag = Ok (Js.join comma (getBucketKeys db tag))).
Proof.
  split; [|split; [|split; [|split]]].
  - intros key value. unfold getPrivKeyForAddress, getValue.
    destruct (getItem db key); split; congruence.
  - reflexivity.
  - intros. unfold getPrivKeyForAddress, getValue, upsertKeyPair.
    rewrite upsertInBucket_getItem. reflexivity.
  - intros. unfold getPrivKeyForPubkey, getValue, upsertAddress.
    rewrite upsertInBucket_getItem. reflexivity.
  - intros tag Hne. unfold getPrivKeyForAddress, getValue, getBucketKeys in *.
    destruct (getItem db tag) as [text|]; [|contradiction].
    rewrite join_split. reflexivity.
Qed.

(** ** What every reachable store keeps *)

Section reachable.
Variable owner : string -> Bucket.
Variable getId : jsobj -> string.
Variable Accepted : json.

(** X20: after every sequence of calls from the empty store whose written
    keys are as the data model asks, no membership list repeats a key, and
    a list holds keys of its own bucket only, none reserved, none with
    the delimiter. *)
Theorem lists_stay_duplicate_free (ops : list op) :
  Forall (op_ok owner getId) ops ->
  let db := run getId Accepted ops ∅ in
  forall b,
    NoDup (getBucketKeys db (tagOf b)) /\
    (forall k, k ∈ getBucketKeys db (tagOf b) ->
       reserved k = false /\ owner k = b /\ comma_free k = true).
Proof.
  intros Hok db b.
  destruct (paired_run owner getId Accepted ops ∅ (paired_empty owner) Hok b)
    as (Hnd & Hmem & _).
  split; [exact Hnd|].
  intros k Hk. destruct (Hmem k Hk) as (_ & Hr & Ho).
  split; [exact Hr|]. split; [exact Ho|].
  pose proof (getBucketKeys_comma_free db (tagOf b)) as H.
  rewrite Forall_forall in H. apply H, Hk.
Qed.

End reachable.

(** ** Buckets and the rest of the store *)

Lemma fill_ext {V} (f g : string -> option V) ks (d : Js.dict V) :
  (forall k, k ∈ ks -> f k = g k) ->
  fold_left (fun ret key => Js.assign key (f key) ret) ks d =
  fold_left (fun ret key => Js.assign key (g key) ret) ks d.
Proof.
  revert d. induction ks as [|k ks IH]; intros d H; [reflexivity|].
  cbn [fold_left]. rewrite (H k) by left.
  apply IH. intros k' Hk'. apply H. right. exact Hk'.
Qed.

Lemma getAllKeyValuesInBucket_ext (db db' : Storage) tag :
  getBucketKeys db' tag = getBucketKeys db tag ->
  (forall k, k ∈ getBucketKeys db tag -> getItem db' k = getItem db k) ->
  getAllKeyValuesInBucket db' tag = getAllKeyValuesInBucket db tag.
Proof.
  intros Hk Hv. unfold getAllKeyValuesInBucket. rewrite Hk.
  apply fill_ext, Hv.
Qed.

Lemma enumerations_ext (db db' : Storage) tag :
  getBucketKeys db' tag = getBucketKeys db tag ->
  (forall k, k ∈ getBucketKeys db tag -> getItem db' k = getItem db k) ->
  getAllKeysInBucket db' tag = getAllKeysInBucket db tag /\
  getAllValuesInBucket db' tag = getAllValuesInBucket db tag /\
  getAllValuesInBucketOfType db' tag = getAllValuesInBucketOfType db tag.
Proof.
  intros Hk Hv.
  unfold getAllValuesInBucketOfType, getAllKeysInBucket, getAllValuesInBucket.
  rewrite (getAllKeyValuesInBucket_ext db db' tag Hk Hv). auto.
Qed.

(** X21: [saveLocation] is invisible to a bucket that does not list the
    location key: the membership list, the three enumerations and every
    entry but the location are as before. A key [locationKey] upserted
    through a bucket, on the other hand, overwrites the location. *)
Theorem saveLocation_keeps_buckets (db : Storage) (location tag : string) :
  tag <> locationKey ->
  locationKey ∉ getBucketKeys db tag ->
  let db' := saveLocation location db in
  getBucketKeys db' tag = getBucketKeys db tag /\
  getAllKeysInBucket db' tag = getAllKeysInBucket db tag /\
  getAllValuesInBucket db' tag = getAllValuesInBucket db tag /\
  getAllValuesInBucketOfType db' tag = getAllValuesInBucketOfType db tag /\
  (forall k, k <> locationKey -> getItem db' k = getItem db k) /\
  (forall value, getLocation (upsertInBucket locationKey value tag db') = Some value).
Proof.
  intros Ht Hout db'.
  assert (Hk : getBucketKeys db' tag = getBucketKeys db tag)
    by (apply getBucketKeys_setItem_ne; congruence).
  assert (Hv : forall k, k <> locationKey -> getItem db' k = getItem db k).
  { intros k Hne. unfold db', saveLocation, getItem, setItem.
    apply lookup_insert_ne. congruence. }
  destruct (enumerations_ext db db' tag Hk) as (H1 & H2 & H3).
  { intros k Hin. apply Hv. intros ->. contradiction. }
  repeat (split; [assumption|]).
  intros value. apply upsertInBucket_getItem.
Qed.

(** X22: the enumerations of a bucket are untouched by an upsert or a delete
    through another bucket, as long as the bucket lists neither the key
    written nor the tag of the other bucket. *)
Theorem other_bucket_enumerations_unchanged (db : Storage)
  (tag tag' key value : string) :
  tag' <> tag -> key <> tag' ->
  key ∉ getBucketKeys db tag' ->
  tag ∉ getBucketKeys db tag' ->
  forall db', db' = upsertInBucket key value tag db \/
              db' = deleteInBucket key tag db ->
    getAllKeysInBucket db' tag' = getAllKeysInBucket db tag' /\
    getAllValuesInBucket db' tag' = getAllValuesInBucket db tag' /\
    getAllValuesInBucketOfType db' tag' = getAllValuesInBucketOfType db tag'.
Proof.
  intros Ht Hk Hkey Htag db' Hdb'. apply enumerations_ext.
  - destruct Hdb' as [-> | ->];
      [apply upsertInBucket_keys_other | apply deleteInBucket_keys_other];
      assumption.
  - intros k Hin.
    assert (k <> key) by (intros ->; contradiction).
    assert (k <> tag) by (intros ->; contradiction).
    destruct Hdb' as [-> | ->];
      [apply upsertInBucket_getItem_ne | apply deleteInBucket_getItem_ne];
      assumption.
Qed.

(** X23: [unreserveUtxo] does not ask that the key is a member of the UTXO
    list: where the store has the text of a record under the key of a txid
    and vout that the list does not hold, the call succeeds, appends the key
    to the list and rewrites the record with [reserved] false. *)
Theorem unreserveUtxo_lists_unlisted_record (db : Storage) (txid : string)
  (vout : Z) (record : jsobj) :
  getItem db (getUtxoKey txid vout) = Some (Json.stringify (JObj record)) ->
  well_formed (JObj record) = true ->
  comma_free txid = true ->
  getUtxoKey txid vout ∉ getBucketKeys db utxoBucketTag ->
  exists db' : Storage,
    unreserveUtxo txid vout db = Ok db' /\
    getBucketKeys db' utxoBucketTag =
      (getBucketKeys db utxoBucketTag ++ [getUtxoKey txid vout])%list /\
    getValueOfType db' (getUtxoKey txid vout) =
      Ok (JObj (Js.obj_define "reserved" (JBool false) record)).
Proof.
  intros Hget Hwf Hcf Hout. set (key := getUtxoKey txid vout) in *.
  assert (Hcfk : comma_free key = true).
  { unfold key. rewrite getUtxoKey_comma_free. exact Hcf. }
  unfold unreserveUtxo. fold key.
  rewrite (getValueOfType_stored db _ (JObj record)) by assumption.
  cbn [rbind Json.spread]. eexists. split; [reflexivity|]. split.
  - unfold upsertValueInBucket. rewrite upsertInBucket_keys;
      [ | assumption | apply getUtxoKey_not_tag].
    destruct (Js.indexOf key (getBucketKeys db utxoBucketTag)) as [i|] eqn:E;
      [|reflexivity].
    apply indexOf_Some, list_elem_of_lookup_2 in E. contradiction.
  - apply getValueOfType_upsertValueInBucket.
    apply well_formed_define; [assumption | reflexivity | reflexivity].
Qed.

(** ** Instances *)

Lemma example_ops_ok : Forall (op_ok example_owner example_getId) example_ops.
Proof.
  unfold example_ops.
  assert (Hv : forall b k, comma_free k = true -> reserved k = false ->
                 example_owner k = b -> valid_key example_owner b k)
    by (intros; repeat split; assumption).
  repeat (apply List.Forall_cons; [cbn [op_ok] | ]); try exact I;
    try apply List.Forall_nil; try (apply Hv; reflexivity).
  intros key Hkey. vm_compute in Hkey. injection Hkey as <-.
  apply Hv; reflexivity.
Qed.

Lemma location_is_latest_saved_witness :
  getLocation (run example_getId (JNum 2) example_ops ∅) = last_location example_ops.
Proof.
  apply (location_is_latest_saved example_owner example_getId (JNum 2) example_ops).
  apply example_ops_ok.
Defined.

Lemma lists_stay_duplicate_free_witness :
  let db := run example_getId (JNum 2) example_ops ∅ in
  NoDup (getBucketKeys db (tagOf ContractBucket)) /\
  (forall k, k ∈ getBucketKeys db (tagOf ContractBucket) ->
     reserved k = false /\ example_owner k = ContractBucket /\ comma_free k = true).
Proof.
  apply (lists_stay_duplicate_free example_owner example_getId (JNum 2) example_ops
           example_ops_ok ContractBucket).
Defined.

Lemma address_round_trip_witness :
  let db : Storage := upsertAddress "bc1p" "priv0" ∅ in
  let db1 := upsertAddress "bc1q" "priv1" db in
  let db2 := deleteAddress "bc1q" db1 in
  getPrivKeyForAddress db1 "bc1q" = Ok "priv1" /\
  "bc1q" ∈ getAddresses db1 /\
  getPrivKeyForAddress db2 "bc1q" = Throw (RepositoryError NotFound) /\
  ("bc1q" ∉ getAddresses db2) /\
  (forall a, a <> "bc1q" -> a ∈ getAddresses db2 <-> a ∈ getAddresses db).
Proof.
  intros db.
  apply (address_round_trip db "bc1q" "priv1");
    [reflexivity | discriminate | discriminate | decide_it | decide_it].
Defined.

Lemma delete_keeps_order_witness :
  let db : Storage :=
    upsertAll addressBucketTag [("a", "1"); ("b", "2"); ("c", "3")] ∅ in
  let db' := deleteInBucket "b" addressBucketTag db in
  getBucketKeys db' addressBucketTag =
    filter (fun k => k <> "b") (getBucketKeys db addressBucketTag) /\
  deleteInBucket "b" addressBucketTag db' = db'.
Proof.
  intros db.
  apply (delete_keeps_order db addressBucketTag "b"); [discriminate | decide_it].
Defined.

Lemma delimiter_key_is_never_listed_witness :
  let db' := upsertInBucket "a,b" "v" addressBucketTag ∅ in
  ("a,b" ∉ getBucketKeys db' addressBucketTag) /\
  getItem db' "a,b" = Some "v" /\
  deleteInBucket "a,b" addressBucketTag db' = db'.
Proof.
  apply (delimiter_key_is_never_listed ∅ addressBucketTag "a,b" "v"). reflexivity.
Defined.

Lemma shared_key_is_deleted_for_both_witness :
  let db' :=
    deleteAddress "02ab" (upsertKeyPair "02ab" "p2" (upsertAddress "02ab" "p1" ∅)) in
  "02ab" ∈ getBucketKeys db' keyPairBucketTag /\
  getPrivKeyForPubkey db' "02ab" = Throw (RepositoryError NotFound).
Proof.
  apply (shared_key_is_deleted_for_both ∅ "02ab" "p1" "p2"); reflexivity.
Defined.

Lemma getUtxoKey_injective_witness : "tx9" = "tx9" /\ 26%Z = 26%Z.
Proof.
  apply (getUtxoKey_injective "tx9" "tx9" 26 26); reflexivity.
Defined.

Lemma unreserveUtxo_idempotent_witness :
  let db : Storage :=
    upsertInBucket "tx901" (Json.stringify (JObj example_utxo)) utxoBucketTag ∅ in
  exists db1 : Storage,
    unreserveUtxo "tx9" 1 db = Ok db1 /\
    unreserveUtxo "tx9" 1 db1 = Ok db1.
Proof.
  intros db. apply (unreserveUtxo_idempotent db "tx9" 1 example_utxo).
  - vm_compute. reflexivity.
  - vm_compute. reflexivity.
  - decide_it.
Defined.

Lemma utxo_round_trip_witness :
  exists db1 : Storage,
    upsertUtxo example_utxo ∅ = Ok db1 /\
    getValueOfType db1 "tx901" = Ok (JObj example_utxo) /\
    "tx901" ∈ getBucketKeys db1 utxoBucketTag /\
    (forall utxo' : jsobj, utxoKeyOf utxo' = Some "tx901" ->
       exists db2 : Storage,
         deleteUtxo utxo' db1 = Ok db2 /\
         getValueOfType db2 "tx901" = Throw (RepositoryError NotFound) /\
         ("tx901" ∉ getBucketKeys db2 utxoBucketTag)).
Proof.
  apply (utxo_round_trip ∅ example_utxo "tx901");
    [reflexivity | reflexivity | reflexivity | decide_it].
Defined.

Lemma unreserve_after_upsert_witness :
  exists (db1 db2 : Storage) (utxo' : jsobj),
    upsertUtxo example_utxo ∅ = Ok db1 /\
    unreserveUtxo "tx9" 1 db1 = Ok db2 /\
    getValueOfType db2 (getUtxoKey "tx9" 1) = Ok (JObj utxo') /\
    Js.obj_get "reserved" utxo' = Some (JBool false) /\
    (forall field, field <> "reserved" ->
       Js.obj_get field utxo' = Js.obj_get field example_utxo) /\
    getBucketKeys db2 utxoBucketTag = getBucketKeys db1 utxoBucketTag.
Proof.
  apply (unreserve_after_upsert ∅ example_utxo "tx9" 1); reflexivity.
Defined.

Lemma updateContract_membership_witness :
  let db : Storage :=
    createContract example_getId example_offered
      (createContract example_getId
         [("state", JNum 1); ("temporaryContractId", JStr "tmp-0")] ∅) in
  let keys := getBucketKeys db contractBucketTag in
  let kept :=
    match Js.obj_get "temporaryContractId" example_accepted with
    | Some (JStr temporaryContractId) =>
        if isAccepted (JNum 2) example_accepted
        then filter (fun k => k <> temporaryContractId) keys
        else keys
    | _ => keys
    end in
  getBucketKeys (updateContract example_getId (JNum 2) example_accepted db)
    contractBucketTag =
    if decide (example_getId example_accepted ∈ kept) then kept
    else (kept ++ [example_getId example_accepted])%list.
Proof.
  intros db.
  apply (updateContract_membership example_getId (JNum 2) db example_accepted);
    [reflexivity | discriminate | decide_it | decide_it].
Defined.

Lemma contract_round_trip_witness :
  let db1 := createContract example_getId example_offered ∅ in
  let db2 := deleteContract (example_getId example_offered) db1 in
  getContract db1 (example_getId example_offered) = Ok (JObj example_offered) /\
  hasContract db1 (example_getId example_offered) = true /\
  getContract db2 (example_getId example_offered)
    = Throw (RepositoryError NotFound) /\
  hasContract db2 (example_getId example_offered) = false.
Proof.
  apply (contract_round_trip example_getId ∅ example_offered);
    [reflexivity | reflexivity | discriminate].
Defined.

Lemma getContracts_filter_edges_witness :
  let db : Storage :=
    removeItem "tmp-1" (createContract example_getId example_offered ∅) in
  let all := [JNull] in
  (Forall (fun r => non_null r = true) all ->
   getContracts (Some {| states := Some [] |}) db = Ok []) /\
  (forall key,
     NoDup (getBucketKeys db contractBucketTag) ->
     "__proto__" ∉ getBucketKeys db contractBucketTag ->
     key ∈ getBucketKeys db contractBucketTag ->
     getItem db key = None ->
     JNull ∈ all /\
     getContracts None db = Ok all /\
     forall l, getContracts (Some {| states := Some l |}) db = Throw TypeError).
Proof.
  intros db all. apply (getContracts_filter_edges db all). vm_compute. reflexivity.
Defined.

Lemma enumeration_skips_proto_witness :
  let db : Storage :=
    upsertAll addressBucketTag [("a", "1"); ("__proto__", "2"); ("b", "3")] ∅ in
  let others :=
    filter (fun k => k <> "__proto__") (getBucketKeys db addressBucketTag) in
  Permutation (getAllKeysInBucket db addressBucketTag) others /\
  Permutation (getAllValuesInBucket db addressBucketTag) (map (getItem db) others) /\
  ("__proto__" ∉ getAllKeysInBucket db addressBucketTag).
Proof.
  intros db. apply (enumeration_skips_proto db addressBucketTag); [decide_it|].
  intros k Hk. apply list_elem_of_In in Hk. vm_compute in Hk.
  destruct Hk as [<-|[<-|[<-|[]]]]; eexists; vm_compute; reflexivity.
Defined.

Lemma bucket_load_returns_stored_witness :
  let db : Storage := createContract example_getId example_offered ∅ in
  exists all,
    getAllValuesInBucketOfType db contractBucketTag = Ok all /\
    Permutation all
      (map (fun _ => JObj example_offered) (getBucketKeys db contractBucketTag)) /\
    (contractBucketTag = utxoBucketTag -> getUtxos db = Ok all) /\
    (contractBucketTag = contractBucketTag -> getContracts None db = Ok all).
Proof.
  intros db.
  apply (bucket_load_returns_stored db contractBucketTag
           (fun _ => JObj example_offered)); [decide_it | decide_it |].
  intros k Hk. apply list_elem_of_In in Hk. vm_compute in Hk.
  destruct Hk as [<-|[]]. split; vm_compute; reflexivity.
Defined.

Lemma saveLocation_keeps_buckets_witness :
  let db : Storage := upsertAddress "bc1q" "priv1" ∅ in
  let db' := saveLocation "popup" db in
  getBucketKeys db' addressBucketTag = getBucketKeys db addressBucketTag /\
  getAllKeysInBucket db' addressBucketTag = getAllKeysInBucket db addressBucketTag /\
  getAllValuesInBucket db' addressBucketTag
    = getAllValuesInBucket db addressBucketTag /\
  getAllValuesInBucketOfType db' addressBucketTag
    = getAllValuesInBucketOfType db addressBucketTag /\
  (forall k, k <> locationKey -> getItem db' k = getItem db k) /\
  (forall value,
     getLocation (upsertInBucket locationKey value addressBucketTag db')
       = Some value).
Proof.
  intros db.
  apply (saveLocation_keeps_buckets db "popup" addressBucketTag);
    [discriminate | decide_it].
Defined.

Lemma other_bucket_enumerations_unchanged_witness :
  let db : Storage := upsertAddress "bc1q" "priv1" ∅ in
  let db' := upsertInBucket "02ab" "priv2" keyPairBucketTag db in
  getAllKeysInBucket db' addressBucketTag = getAllKeysInBucket db addressBucketTag /\
  getAllValuesInBucket db' addressBucketTag
    = getAllValuesInBucket db addressBucketTag /\
  getAllValuesInBucketOfType db' addressBucketTag
    = getAllValuesInBucketOfType db addressBucketTag.
Proof.
  intros db db'.
  apply (other_bucket_enumerations_unchanged db keyPairBucketTag addressBucketTag
           "02ab" "priv2");
    [discriminate | discriminate | decide_it | decide_it | left; reflexivity].
Defined.

Lemma unreserveUtxo_lists_unlisted_record_witness :
  let db : Storage := setItem "tx901" (Json.stringify (JObj example_offered)) ∅ in
  exists db' : Storage,
    unreserveUtxo "tx9" 1 db = Ok db' /\
    getBucketKeys db' utxoBucketTag =
      (getBucketKeys db utxoBucketTag ++ [getUtxoKey "tx9" 1])%list /\
    getValueOfType db' (getUtxoKey "tx9" 1) =
      Ok (JObj (Js.obj_define "reserved" (JBool false) example_offered)).
Proof.
  intros db.
  apply (unreserveUtxo_lists_unlisted_record db "tx9" 1 example_offered);
    [reflexivity | reflexivity | reflexivity | decide_it].
Defined.
